(** * atomicdict: a versioned copy-on-write dictionary with optimistic
      transactions

    A shallow embedding of [atomicdict/__init__.py] (class [AtomicDict]) and
    [atomicdict/dict_transaction.py] (classes [DictTransaction] and
    [DictTransactionError]) over an explicit object heap, followed by the
    properties of the published (version, mapping) pair.

    Python objects live in a heap indexed by identities; an attribute that
    holds a dict holds its identity, so that two attributes may alias one
    dict, exactly as in the source. *)

From stdpp Require Import gmap strings list fin_maps pretty relations.

Local Open Scope Z_scope.

(** ** Objects *)

(** Object identity: what Python's [is] compares. *)
Definition loc := positive.

(** The values found in the store slot of [__immutable_store__] and in the
    [data] attribute of a transaction: a reference to a dict, or [None]
    (assigned by [commit_transaction]). *)
Inductive pyref :=
| PyNone
| PyDict (l : loc).

(** The objects handed to [UserDict.__init__] as [self]. *)
Inductive pyobj :=
| ObjRef (r : pyref)
| ObjTransaction (t : loc).

(** Exceptions.  [DictTransactionError] carries [source], [version] and the
    message handed to [Exception.__init__]. *)
Inductive exn :=
| AttributeError
| TypeError
| KeyError
| DictTransactionError (source : loc) (version : Z) (msg : string).

Definition is_DictTransactionError (e : exn) : bool :=
  match e with
  | DictTransactionError _ _ _ => true
  | _ => false
  end.

(** An [AtomicDict] instance.  [__immutable_store__] is the pair
    [(ver, store)]; the lock [__update_store_lock__] is taken on entry of
    every [with] block and released on each of its exits, so a sequential
    caller always finds it free: it appears only in the interleaving model
    below. *)
Record AtomicDict := mkAtomicDict {
  __immutable_store__ : Z * pyref
}.

(** A [DictTransaction] instance: its attribute dictionary.  An attribute
    that was never assigned is [None] here, and reading it raises
    [AttributeError]. *)
Record DictTransaction := mkDictTransaction {
  data : option pyref;
  __source__ : option loc;
  __ver__ : option Z;
  __committed__ : option bool
}.

Definition new_DictTransaction : DictTransaction :=
  mkDictTransaction None None None None.

Section atomicdict.
Context `{Countable K} {V : Type}.

(** ** The heap and the monad of Python statements *)

Record heap := Heap {
  dicts : gmap loc (gmap K V);
  atomic_dicts : gmap loc AtomicDict;
  transactions : gmap loc DictTransaction
}.

(** A statement returns a value, or raises, in both cases with the heap
    as the statement left it.  [Wrong] marks a reference to an object the
    heap does not hold, which no Python execution produces. *)
Inductive outcome (A : Type) :=
| Return (a : A) (h : heap)
| Raise (e : exn) (h : heap)
| Wrong.
Global Arguments Return {A} a h.
Global Arguments Raise {A} e h.
Global Arguments Wrong {A}.

Definition M (A : Type) : Type := heap → outcome A.

Global Instance M_ret : MRet M := λ A a h, Return a h.
Global Instance M_bind : MBind M := λ A B f m h,
  match m h with
  | Return a h' => f a h'
  | Raise e h' => Raise e h'
  | Wrong => Wrong
  end.

Definition raise {A} (e : exn) : M A := λ h, Raise e h.

(** *** dict objects *)

Definition set_dicts (d : gmap loc (gmap K V)) (h : heap) : heap :=
  Heap d (atomic_dicts h) (transactions h).
Definition set_atomic_dicts (a : gmap loc AtomicDict) (h : heap) : heap :=
  Heap (dicts h) a (transactions h).
Definition set_transactions (t : gmap loc DictTransaction) (h : heap) : heap :=
  Heap (dicts h) (atomic_dicts h) t.

(** Method lookup on a store value: [None] has none of the dict methods. *)
Definition the_dict (store : pyref) : M (gmap K V) := λ h,
  match store with
  | PyNone => Raise AttributeError h
  | PyDict l =>
      match dicts h !! l with
      | Some m => Return m h
      | None => Wrong
      end
  end.

(** A dict literal or a copy: a fresh object. *)
Definition new_dict (m : gmap K V) : M loc := λ h,
  let l := fresh (dom (dicts h)) in
  Return l (set_dicts (<[l := m]> (dicts h)) h).

(** [store.get(k, default_value)] *)
Definition dict_get (store : pyref) (k : K) (default_value : V) : M V :=
  m ← the_dict store; mret (default default_value (m !! k)).

(** [store.copy()] *)
Definition dict_copy (store : pyref) : M loc :=
  m ← the_dict store; new_dict m.

(** In-place modification of the dict object at [l]. *)
Definition modify_dict (l : loc) (f : gmap K V → gmap K V) : M unit := λ h,
  match dicts h !! l with
  | Some m => Return () (set_dicts (<[l := f m]> (dicts h)) h)
  | None => Wrong
  end.

(** [d.update(write_dict)]: the entries of [write_dict] win. *)
Definition dict_update (l : loc) (write_dict : gmap K V) : M unit :=
  modify_dict l (λ m, write_dict ∪ m).

(** [k in d] *)
Definition dict_contains (l : loc) (k : K) : M bool :=
  m ← the_dict (PyDict l); mret (bool_decide (is_Some (m !! k))).

(** [del d[k]] *)
Definition dict_delitem (l : loc) (k : K) : M unit :=
  m ← the_dict (PyDict l);
  if bool_decide (is_Some (m !! k)) then modify_dict l (delete k)
  else raise KeyError.

(** [d[k] = v] *)
Definition dict_setitem (l : loc) (k : K) (v : V) : M unit :=
  modify_dict l (<[k := v]>).

(** *** AtomicDict attributes *)

Definition get_immutable_store (self : loc) : M (Z * pyref) := λ h,
  match atomic_dicts h !! self with
  | Some ad => Return (__immutable_store__ ad) h
  | None => Wrong
  end.

Definition set_immutable_store (self : loc) (s : Z * pyref) : M unit := λ h,
  match atomic_dicts h !! self with
  | Some _ =>
      Return () (set_atomic_dicts (<[self := mkAtomicDict s]> (atomic_dicts h)) h)
  | None => Wrong
  end.

(** *** DictTransaction attributes *)

Definition the_transaction (t : loc) : M DictTransaction := λ h,
  match transactions h !! t with
  | Some tx => Return tx h
  | None => Wrong
  end.

Definition getattr {A} (field : DictTransaction → option A) (t : loc) : M A :=
  tx ← the_transaction t;
  match field tx with
  | Some a => mret a
  | None => raise AttributeError
  end.

Definition modify_transaction (t : loc) (f : DictTransaction → DictTransaction)
  : M unit := λ h,
  match transactions h !! t with
  | Some tx => Return () (set_transactions (<[t := f tx]> (transactions h)) h)
  | None => Wrong
  end.

Definition set_data (t : loc) (r : pyref) : M unit :=
  modify_transaction t
    (λ tx, mkDictTransaction (Some r) (__source__ tx) (__ver__ tx) (__committed__ tx)).
Definition set_source (t : loc) (s : loc) : M unit :=
  modify_transaction t
    (λ tx, mkDictTransaction (data tx) (Some s) (__ver__ tx) (__committed__ tx)).
Definition set_ver (t : loc) (v : Z) : M unit :=
  modify_transaction t
    (λ tx, mkDictTransaction (data tx) (__source__ tx) (Some v) (__committed__ tx)).
Definition set_committed (t : loc) (b : bool) : M unit :=
  modify_transaction t
    (λ tx, mkDictTransaction (data tx) (__source__ tx) (__ver__ tx) (Some b)).

(** [object.__new__(DictTransaction)]: an instance without attributes. *)
Definition new_transaction : M loc := λ h,
  let t := fresh (dom (transactions h)) in
  Return t (set_transactions (<[t := new_DictTransaction]> (transactions h)) h).

(** ** class AtomicDict: atomic operations *)

(** [{k: store.get(k, default_value) for k in keys}] *)
Fixpoint read_comprehension (store : pyref) (keys : list K) (default_value : V)
    (acc : gmap K V) : M (gmap K V) :=
  match keys with
  | [] => mret acc
  | k :: keys' =>
      v ← dict_get store k default_value;
      read_comprehension store keys' default_value (<[k := v]> acc)
  end.

(** [for k in remove_keys: if k in local_store: del local_store[k]] *)
Fixpoint remove_loop (local_store : loc) (remove_keys : list K) : M unit :=
  match remove_keys with
  | [] => mret ()
  | k :: remove_keys' =>
      b ← dict_contains local_store k;
      (if b : bool then dict_delitem local_store k else mret ());;
      remove_loop local_store remove_keys'
  end.

Definition atomic_write_read (self : loc) (write_dict : option (gmap K V))
    (read_keys remove_keys : list K) (default_value : V) : M (gmap K V) :=
  let write_dict := default ∅ write_dict in
  '(ver, store) ← get_immutable_store self;
  read_values ← read_comprehension store read_keys default_value ∅;
  local_store ← dict_copy store;
  dict_update local_store write_dict;;
  remove_loop local_store remove_keys;;
  set_immutable_store self (ver + 1, PyDict local_store);;
  mret read_values.

Definition atomic_waitfree_read (self : loc) (keys : list K) (default_value : V)
    : M (gmap K V) :=
  '(ver, store) ← get_immutable_store self;
  read_comprehension store keys default_value ∅.

(** The [ver] property. *)
Definition ver (self : loc) : M Z :=
  '(ver, store) ← get_immutable_store self; mret ver.

(** ** class AtomicDict: the dict operations that publish *)

Definition clear (self : loc) : M unit :=
  '(ver, store) ← get_immutable_store self;
  d ← new_dict ∅;
  set_immutable_store self (ver + 1, PyDict d).

Definition pop (self : loc) (key : K) (default_value : V) : M V :=
  res ← atomic_write_read self None [key] [key] default_value;
  match res !! key with
  | Some v => mret v
  | None => raise KeyError
  end.

(** ** class DictTransaction(UserDict) *)

(** [self.data = value]: only an instance with an attribute dictionary
    takes the assignment; a [dict] and [None] have none. *)
Definition obj_set_data (self : pyobj) (value : pyref) : M unit :=
  match self with
  | ObjTransaction t => set_data t value
  | ObjRef _ => raise AttributeError
  end.

(** [UserDict.__init__(self, dict=None)] of the standard library:
    [self.data = {}], then [self.update(dict)] unless [dict is None];
    [update] stores every entry of [dict] into [self.data]. *)
Definition UserDict_init (self : pyobj) (dict : pyref) : M unit :=
  d ← new_dict ∅;
  obj_set_data self (PyDict d);;
  match dict with
  | PyNone => mret ()
  | PyDict _ => m ← the_dict dict; dict_update d m
  end.

(** [UserDict.__setitem__]: [self.data[key] = item] *)
Definition UserDict_setitem (self : loc) (key : K) (item : V) : M unit :=
  d ← getattr data self;
  match d with
  | PyDict l => dict_setitem l key item
  | PyNone => raise TypeError
  end.

(** [UserDict.__delitem__]: [del self.data[key]] *)
Definition UserDict_delitem (self : loc) (key : K) : M unit :=
  d ← getattr data self;
  match d with
  | PyDict l => dict_delitem l key
  | PyNone => raise TypeError
  end.

(** [DictTransaction.__init__].  Its first statement is
    [UserDict.__init__(source_store)]: the store is passed in the place of
    [self], and the [dict] parameter keeps its default [None]. *)
Definition DictTransaction_init (self : loc) (source_atomic_dict : loc)
    (source_ver : Z) (source_store : pyref) : M unit :=
  UserDict_init (ObjRef source_store) PyNone;;
  set_source self source_atomic_dict;;
  set_ver self source_ver;;
  set_committed self false.

(** The call [DictTransaction(source_atomic_dict, source_ver, source_store)]. *)
Definition DictTransaction_call (source_atomic_dict : loc) (source_ver : Z)
    (source_store : pyref) : M loc :=
  self ← new_transaction;
  DictTransaction_init self source_atomic_dict source_ver source_store;;
  mret self.

Definition validate_transaction (self : loc) (atomic_dict : loc) : M bool :=
  src ← getattr __source__ self;
  if bool_decide (atomic_dict ≠ src) then
    src ← getattr __source__ self;
    v ← getattr __ver__ self;
    raise (DictTransactionError src v
             "Transaction object does not match input object")
  else
    cur_ver ← ver atomic_dict;
    v ← getattr __ver__ self;
    if bool_decide (cur_ver ≠ v) then
      src ← getattr __source__ self;
      v ← getattr __ver__ self;
      raise (DictTransactionError src v
               ("Expected version: " +:+ pretty v +:+
                " - Actual version: " +:+ pretty cur_ver))
    else mret true.

(** [abort(reason=None)]; an empty [reason] is falsy. *)
Definition abort {A} (self : loc) (reason : option string) : M A :=
  let msg :=
    match reason with
    | Some (String a r) => "Transaction aborted by user: " +:+ String a r
    | _ => "Transaction aborted by user."
    end in
  src ← getattr __source__ self;
  v ← getattr __ver__ self;
  raise (DictTransactionError src v msg).

(** ** class AtomicDict: transactions *)

Definition begin_transaction (self : loc) : M loc :=
  '(ver, store) ← get_immutable_store self;
  DictTransaction_call self ver store.

Definition commit_transaction (self : loc) (transaction : loc) : M bool :=
  '(ver, store) ← get_immutable_store self;
  new_store ← getattr data transaction;
  validate_transaction transaction self;;
  set_immutable_store self (ver + 1, new_store);;
  set_data transaction PyNone;;
  mret true.

(** [DictTransaction.commit] *)
Definition commit (self : loc) : M unit :=
  c ← getattr __committed__ self;
  if negb c then
    src ← getattr __source__ self;
    r ← commit_transaction src self;
    set_committed self r
  else mret ().

(** One round of the [while] loop of [run_transaction]: the [try] body. *)
Definition run_transaction_try {A} (self : loc) (transaction_func : loc → M A)
    : M A :=
  transaction ← begin_transaction self;
  ret_value ← transaction_func transaction;
  commit transaction;;
  mret ret_value.

(** [run_transaction]: the loop has no bound in the source; [fuel] bounds
    the number of rounds and [None] is a loop that used all of it.
    [except DictTransactionError] catches that exception only. *)
Fixpoint run_transaction {A} (fuel : nat) (self : loc)
    (transaction_func : loc → M A) (h : heap) : option (outcome A) :=
  match fuel with
  | O => None
  | S fuel' =>
      match run_transaction_try self transaction_func h with
      | Return ret_value h' => Some (Return ret_value h')
      | Raise e h' =>
          if is_DictTransactionError e
          then run_transaction fuel' self transaction_func h'
          else Some (Raise e h')
      | Wrong => Some Wrong
      end
  end.

(** ** Sequences of publishing calls *)

(** The calls on one [AtomicDict] that assign [__immutable_store__]. *)
Inductive call :=
| CallWriteRead (write_dict : option (gmap K V)) (read_keys remove_keys : list K)
    (default_value : V)
| CallCommit (transaction : loc)
| CallClear.

Definition run_call (self : loc) (c : call) : M unit :=
  match c with
  | CallWriteRead write_dict read_keys remove_keys default_value =>
      atomic_write_read self write_dict read_keys remove_keys default_value;; mret ()
  | CallCommit transaction => commit_transaction self transaction;; mret ()
  | CallClear => clear self
  end.

(** The value of the [ver] property after each call of the sequence that
    returned; a call that raised is caught by the caller, who goes on. *)
Fixpoint published_versions (self : loc) (calls : list call) (h : heap) : list Z :=
  match calls with
  | [] => []
  | c :: calls' =>
      match run_call self c h with
      | Return _ h' =>
          match ver self h' with
          | Return v _ => v :: published_versions self calls' h'
          | _ => []
          end
      | Raise _ h' => published_versions self calls' h'
      | Wrong => []
      end
  end.

(** ** What the loops of [atomic_write_read] compute *)

Definition read_values (store : gmap K V) (keys : list K) (default_value : V)
    : gmap K V :=
  foldl (λ acc k, <[k := default default_value (store !! k)]> acc) ∅ keys.

Definition removed (remove_keys : list K) (local_store : gmap K V) : gmap K V :=
  foldl (λ m k, delete k m) local_store remove_keys.

(** The heap after [self] published a fresh dict holding [m] as version [v]. *)
Definition published (self : loc) (v : Z) (m : gmap K V) (h : heap) : heap :=
  let l := fresh (dom (dicts h)) in
  Heap (<[l := m]> (dicts h))
       (<[self := mkAtomicDict (v, PyDict l)]> (atomic_dicts h))
       (transactions h).

(** The heap after [c] published the store [ns] of transaction [t] as
    version [v]: the transaction keeps no reference to it. *)
Definition committed_heap (c t : loc) (v : Z) (ns : pyref) (tx : DictTransaction)
    (h : heap) : heap :=
  Heap (dicts h)
       (<[c := mkAtomicDict (v, ns)]> (atomic_dicts h))
       (<[t := mkDictTransaction (Some PyNone) (__source__ tx) (__ver__ tx)
                 (__committed__ tx)]> (transactions h)).

(** ** Threads: [atomic_waitfree_read] against concurrent [atomic_write_read]

    Each thread runs its call one statement at a time (one key at a time
    inside the comprehension and the removal loop); the statements are the
    ones of the sequential embedding above, run on the shared heap.  Any
    thread may take the next step. *)

Record awr_args := AwrArgs {
  write_dict : option (gmap K V);
  read_keys : list K;
  remove_keys : list K;
  default_value : V
}.

(** Where a thread stands inside [atomic_write_read]. *)
Inductive writer :=
| AwrCall (a : awr_args)
    (* at [with self.__update_store_lock__:] *)
| AwrLocked (a : awr_args)
    (* at [ver, store = self.__immutable_store__] *)
| AwrReading (a : awr_args) (ver : Z) (store : pyref) (keys : list K) (acc : gmap K V)
    (* inside the comprehension, [keys] left; then at [store.copy()] *)
| AwrUpdate (a : awr_args) (ver : Z) (local_store : loc) (read_values : gmap K V)
    (* at [local_store.update(write_dict)] *)
| AwrRemove (a : awr_args) (ver : Z) (local_store : loc) (keys : list K)
    (read_values : gmap K V)
    (* inside the removal loop, [keys] left; then at the linearization point *)
| AwrRelease (r : gmap K V + exn)
    (* leaving the [with] block, by [return] or by an exception *)
| AwrDone (r : gmap K V + exn).

(** Where a thread stands inside [atomic_waitfree_read]. *)
Inductive reader :=
| WfrCall (keys : list K) (default_value : V)
    (* at [ver, store = self.__immutable_store__] *)
| WfrReading (store : pyref) (keys : list K) (acc : gmap K V) (default_value : V)
    (* inside the comprehension, [keys] left; then at [return] *)
| WfrDone (r : gmap K V + exn).

(** One statement [m] of a thread: where it goes on by [ok], or the
    exception it leaves with. *)
Definition statement {A T} (m : M A) (ok : A → T) (ex : exn → T) (h : heap)
    : option (T * heap) :=
  match m h with
  | Return a h' => Some (ok a, h')
  | Raise e h' => Some (ex e, h')
  | Wrong => None
  end.

(** The next step of a writer; [None] when it waits for the lock or is done. *)
Definition writer_step (self : loc) (w : writer) (h : heap) (lock : bool)
    : option (writer * heap * bool) :=
  let raising e := AwrRelease (inr e) in
  match w with
  | AwrCall a => if lock then None else Some (AwrLocked a, h, true)
  | AwrLocked a =>
      p ← statement (get_immutable_store self)
            (λ '(ver, store), AwrReading a ver store (read_keys a) ∅) raising h;
      Some (p, lock)
  | AwrReading a ver store (k :: keys) acc =>
      p ← statement (dict_get store k (default_value a))
            (λ v, AwrReading a ver store keys (<[k := v]> acc)) raising h;
      Some (p, lock)
  | AwrReading a ver store [] acc =>
      p ← statement (dict_copy store) (λ l, AwrUpdate a ver l acc) raising h;
      Some (p, lock)
  | AwrUpdate a ver l rv =>
      p ← statement (dict_update l (default ∅ (write_dict a)))
            (λ _, AwrRemove a ver l (remove_keys a) rv) raising h;
      Some (p, lock)
  | AwrRemove a ver l (k :: keys) rv =>
      p ← statement (b ← dict_contains l k;
                      if b : bool then dict_delitem l k else mret ())
            (λ _, AwrRemove a ver l keys rv) raising h;
      Some (p, lock)
  | AwrRemove a ver l [] rv =>
      p ← statement (set_immutable_store self (ver + 1, PyDict l))
            (λ _, AwrRelease (inl rv)) raising h;
      Some (p, lock)
  | AwrRelease r => Some (AwrDone r, h, false)
  | AwrDone _ => None
  end.

(** The next step of the reader: it never looks at the lock. *)
Definition reader_step (self : loc) (r : reader) (h : heap) : option (reader * heap) :=
  let raising e := WfrDone (inr e) in
  match r with
  | WfrCall keys d =>
      statement (get_immutable_store self)
        (λ '(ver, store), WfrReading store keys ∅ d) raising h
  | WfrReading store (k :: keys) acc d =>
      statement (dict_get store k d)
        (λ v, WfrReading store keys (<[k := v]> acc) d) raising h
  | WfrReading store [] acc d => Some (WfrDone (inl acc), h)
  | WfrDone _ => None
  end.

(** A thread left alone: its steps one after the other, at most [fuel]. *)
Fixpoint writer_run (fuel : nat) (self : loc) (w : writer) (h : heap) (lock : bool)
    : writer * heap * bool :=
  match fuel with
  | O => (w, h, lock)
  | S fuel' =>
      match writer_step self w h lock with
      | Some (w', h', lock') => writer_run fuel' self w' h' lock'
      | None => (w, h, lock)
      end
  end.

Fixpoint reader_run (fuel : nat) (self : loc) (r : reader) (h : heap) : reader * heap :=
  match fuel with
  | O => (r, h)
  | S fuel' =>
      match reader_step self r h with
      | Some (r', h') => reader_run fuel' self r' h'
      | None => (r, h)
      end
  end.


Record system := System {
  sys_heap : heap;
  sys_lock : bool;
  sys_reader : reader;
  sys_writers : list writer
}.

(** Interleaving: the reader steps, or one of the writers steps, or
    another thread calls [atomic_write_read]. *)
Inductive sys_step (self : loc) : system → system → Prop :=
| step_reader h h' lock r r' ws :
    reader_step self r h = Some (r', h') →
    sys_step self (System h lock r ws) (System h' lock r' ws)
| step_writer h h' lock lock' r ws i w w' :
    ws !! i = Some w →
    writer_step self w h lock = Some (w', h', lock') →
    sys_step self (System h lock r ws) (System h' lock' r (<[i := w']> ws))
| step_call h lock r ws a :
    sys_step self (System h lock r ws) (System h lock r (ws ++ [AwrCall a])).

(** The dict a writer is building and has not published yet. *)
Definition local_store_of (w : writer) : option loc :=
  match w with
  | AwrUpdate _ _ l _ | AwrRemove _ _ l _ _ => Some l
  | _ => None
  end.

(** [self] holds version [v] and the mapping [m]. *)
Definition snapshot (self : loc) (h : heap) (v : Z) (m : gmap K V) : Prop :=
  ∃ l, atomic_dicts h !! self = Some (mkAtomicDict (v, PyDict l)) ∧
       dicts h !! l = Some m.

(** The dict at [l] holds [m] and no writer is building it. *)
Definition holds (s : system) (l : loc) (m : gmap K V) : Prop :=
  dicts (sys_heap s) !! l = Some m ∧
  ∀ i w, sys_writers s !! i = Some w → local_store_of w ≠ Some l.

(** The states of a running program: the published store is a dict of the
    heap that no writer is building, and the dicts under construction are in
    the heap, one per writer. *)
Definition well_formed (self : loc) (s : system) : Prop :=
  (∃ v l m, atomic_dicts (sys_heap s) !! self = Some (mkAtomicDict (v, PyDict l)) ∧
            holds s l m) ∧
  (∀ i w l, sys_writers s !! i = Some w → local_store_of w = Some l →
            is_Some (dicts (sys_heap s) !! l)) ∧
  (∀ i j w1 w2 l, sys_writers s !! i = Some w1 → sys_writers s !! j = Some w2 →
                  local_store_of w1 = Some l → local_store_of w2 = Some l → i = j).

(** What the reader has done so far, in a run from [s0] of a call with
    [keys] and [default_value]: once it has read the published pair, the
    store it holds was the published one of some state [s1] of the run, is
    still as it was then, and the values read so far are its values. *)
Definition reader_invariant (self : loc) (s0 : system) (keys : list K)
    (default_value : V) (s : system) : Prop :=
  match sys_reader s with
  | WfrCall keys' d => keys' = keys ∧ d = default_value
  | WfrReading store keys' acc d =>
      d = default_value ∧
      ∃ s1 v l m done,
        store = PyDict l ∧
        rtc (sys_step self) s0 s1 ∧ rtc (sys_step self) s1 s ∧
        atomic_dicts (sys_heap s1) !! self = Some (mkAtomicDict (v, PyDict l)) ∧
        dicts (sys_heap s1) !! l = Some m ∧
        holds s l m ∧
        keys = done ++ keys' ∧ acc = read_values m done default_value
  | WfrDone (inl res) =>
      ∃ s1 v m,
        rtc (sys_step self) s0 s1 ∧ rtc (sys_step self) s1 s ∧
        snapshot self (sys_heap s1) v m ∧
        res = read_values m keys default_value
  | WfrDone (inr _) => False
  end.

(** ** class AtomicDict: construction and the operations that only read *)

(** A new [AtomicDict] instance; it is recorded once [__init__] has given
    it its store. *)
Definition new_atomic_dict (s : Z * pyref) : M loc := λ h,
  let c := fresh (dom (atomic_dicts h)) in
  Return c (set_atomic_dicts (<[c := mkAtomicDict s]> (atomic_dicts h)) h).

(** The call of [dict] with no argument or with one object: [dict()] is empty,
    [dict(d)] is a new dict with the entries of [d], [dict(None)] raises
    [TypeError]. *)
Definition dict_call (arg : option pyref) : M loc :=
  match arg with
  | None => new_dict ∅
  | Some PyNone => raise TypeError
  | Some (PyDict l) => m ← the_dict (PyDict l); new_dict m
  end.

(** The call of [AtomicDict], with the arguments of [dict]:
    [self.__immutable_store__ = (0, dict(...))]. *)
Definition AtomicDict_call (arg : option pyref) : M loc :=
  d ← dict_call arg;
  new_atomic_dict (0, PyDict d).

(** [__len__]: [len(store)] *)
Definition __len__ (self : loc) : M Z :=
  '(ver, store) ← get_immutable_store self;
  match store with
  | PyNone => raise TypeError
  | PyDict _ => m ← the_dict store; mret (Z.of_nat (size m))
  end.

(** [copy]: [store.copy()] *)
Definition copy (self : loc) : M loc :=
  '(ver, store) ← get_immutable_store self;
  dict_copy store.

(** [__getitem__]: [store[key]] *)
Definition __getitem__ (self : loc) (key : K) : M V :=
  '(ver, store) ← get_immutable_store self;
  match store with
  | PyNone => raise TypeError
  | PyDict _ =>
      m ← the_dict store;
      match m !! key with
      | Some v => mret v
      | None => raise KeyError
      end
  end.

(** [get]: [store.get(key, default_value)] *)
Definition get (self : loc) (key : K) (default_value : V) : M V :=
  '(ver, store) ← get_immutable_store self;
  dict_get store key default_value.

(** [__contains__]: [item in store] *)
Definition __contains__ (self : loc) (item : K) : M bool :=
  '(ver, store) ← get_immutable_store self;
  match store with
  | PyNone => raise TypeError
  | PyDict l => dict_contains l item
  end.

(** ** class AtomicDict: the dict operations built on [atomic_write_read]

    They leave [default_value] at its default [None]; [none] stands for
    it.  With [read_keys] empty it is never looked at. *)

Definition update (self : loc) (entries : gmap K V) (none : V) : M unit :=
  atomic_write_read self (Some entries) [] [] none;; mret ().

Definition __setitem__ (self : loc) (key : K) (item : V) (none : V) : M unit :=
  atomic_write_read self (Some {[ key := item ]}) [] [] none;; mret ().

Definition __delitem__ (self : loc) (key : K) (none : V) : M unit :=
  atomic_write_read self None [] [key] none;; mret ().

(** A sequence of publishing calls, run to its end: the heap it leaves,
    a raising call being caught by the caller. *)
Fixpoint run_calls (self : loc) (calls : list call) (h : heap) : option heap :=
  match calls with
  | [] => Some h
  | c :: calls' =>
      match run_call self c h with
      | Return _ h' | Raise _ h' => run_calls self calls' h'
      | Wrong => None
      end
  end.

(** The system after writer [i] has taken its next [fuel] steps, the other
    threads standing still. *)
Definition system_after (fuel : nat) (self : loc) (i : nat) (s : system) : system :=
  match sys_writers s !! i with
  | Some w =>
      let '(w', h', lock') := writer_run fuel self w (sys_heap s) (sys_lock s) in
      System h' lock' (sys_reader s) (<[i := w']> (sys_writers s))
  | None => s
  end.

(** Writer [i] can take a step. *)
Definition can_step (self : loc) (i : nat) (s : system) : bool :=
  match sys_writers s !! i with
  | Some w => bool_decide (is_Some (writer_step self w (sys_heap s) (sys_lock s)))
  | None => false
  end.


(** The outcome [o] of a statement run on [h] left the heap as it was. *)
Definition unchanged {A} (h : heap) (o : outcome A) : Prop :=
  match o with
  | Return _ h' | Raise _ h' => h' = h
  | Wrong => True
  end.


(** ** The lock

    A writer is inside the [with] block from the moment it has the lock
    until it has released it. *)
Definition in_with_block (w : writer) : bool :=
  match w with
  | AwrCall _ | AwrDone _ => false
  | _ => true
  end.

(** What a writer inside the [with] block has in hand: the pair it read is
    the published one, and what it has built so far is built from the
    published mapping. *)
Definition writer_progress (self : loc) (h : heap) (w : writer) : Prop :=
  match w with
  | AwrReading a v store keys acc =>
      ∃ l m done,
        store = PyDict l ∧
        atomic_dicts h !! self = Some (mkAtomicDict (v, PyDict l)) ∧
        dicts h !! l = Some m ∧
        read_keys a = done ++ keys ∧
        acc = read_values m done (default_value a)
  | AwrUpdate a v l' rv =>
      ∃ l m,
        atomic_dicts h !! self = Some (mkAtomicDict (v, PyDict l)) ∧
        dicts h !! l = Some m ∧ dicts h !! l' = Some m ∧
        rv = read_values m (read_keys a) (default_value a)
  | AwrRemove a v l' keys rv =>
      ∃ l m m1,
        atomic_dicts h !! self = Some (mkAtomicDict (v, PyDict l)) ∧
        dicts h !! l = Some m ∧ dicts h !! l' = Some m1 ∧
        removed keys m1 = removed (remove_keys a) (default ∅ (write_dict a) ∪ m) ∧
        rv = read_values m (read_keys a) (default_value a)
  | _ => True
  end.

(** The states of a running program, as the lock keeps them: one writer at
    most is inside the [with] block, the lock is held while one is, and
    that writer works on the published pair. *)
Definition lock_invariant (self : loc) (s : system) : Prop :=
  (∀ i j w1 w2, sys_writers s !! i = Some w1 → sys_writers s !! j = Some w2 →
                in_with_block w1 = true → in_with_block w2 = true → i = j) ∧
  (∀ i w, sys_writers s !! i = Some w → in_with_block w = true →
          sys_lock s = true) ∧
  (∀ i w, sys_writers s !! i = Some w → writer_progress self (sys_heap s) w).

End atomicdict.

(** ** Concrete heaps, with string keys and integer values *)

(** An [AtomicDict] (object 1) at version 0 holding [{a: 1, b: 2}]. *)
Definition heap_ab : @heap string _ _ Z :=
  Heap {[ 1%positive := {[ "a" := 1; "b" := 2 ]} ]}
       {[ 1%positive := mkAtomicDict (0, PyDict 1%positive) ]}
       ∅.

(** [heap_ab] after [atomic_write_read(write_dict={a: 3}, ...)]. *)
Definition heap_ab_written : @heap string _ _ Z :=
  Heap {[ 1%positive := {[ "a" := 1; "b" := 2 ]};
          2%positive := {[ "a" := 3; "b" := 2 ]} ]}
       {[ 1%positive := mkAtomicDict (1, PyDict 2%positive) ]}
       ∅.

(** [heap_ab] with two transaction objects that carry all attributes:
    transaction 1 of the [AtomicDict], at its version, holding
    [{a: 1, b: 5}] in a dict of its own; transaction 2, the same at the
    stale version 7. *)
Definition heap_tx : @heap string _ _ Z :=
  Heap {[ 1%positive := {[ "a" := 1; "b" := 2 ]};
          2%positive := {[ "a" := 1; "b" := 5 ]} ]}
       {[ 1%positive := mkAtomicDict (0, PyDict 1%positive) ]}
       {[ 1%positive := mkDictTransaction (Some (PyDict 2%positive)) (Some 1%positive)
                          (Some 0) (Some false);
          2%positive := mkDictTransaction (Some (PyDict 2%positive)) (Some 1%positive)
                          (Some 7) (Some false) ]}.

(** A reader of [a] and [b] and a thread about to write both keys, on
    [heap_ab]. *)
Definition system_ab : @system string _ _ Z :=
  System heap_ab false (WfrCall ["a"; "b"] 0)
         [AwrCall (AwrArgs (Some {[ "a" := 3; "b" := 4 ]}) [] [] 0)].

(** * Properties *)

Section properties.
Context `{Countable K} {V : Type}.
Implicit Types (h : @heap K _ _ V) (D : gmap loc (gmap K V))
  (A : gmap loc AtomicDict) (T : gmap loc DictTransaction)
  (m : gmap K V) (l c t : loc) (v : Z).

(** Unfold the monad and compute. *)
Ltac run := repeat (progress (unfold mbind, M_bind, mret, M_ret, raise; simpl)).

(** ** The loops *)

Lemma read_comprehension_dict D A T l m keys (d : V) acc :
  D !! l = Some m →
  read_comprehension (PyDict l) keys d acc (Heap D A T)
  = Return (foldl (λ acc k, <[k := default d (m !! k)]> acc) acc keys) (Heap D A T).
Proof.
  intros Hl. revert acc. induction keys as [|k keys IH]; intros acc; simpl; [done|].
  unfold dict_get. run. rewrite Hl. apply IH.
Qed.

Lemma read_comprehension_None keys (d : V) acc h :
  read_comprehension PyNone keys d acc h
  = match keys with [] => Return acc h | _ => Raise AttributeError h end.
Proof. by destruct keys. Qed.

Lemma read_comprehension_dangling D A T l keys (d : V) acc :
  D !! l = None →
  read_comprehension (PyDict l) keys d acc (Heap D A T)
  = match keys with [] => Return acc (Heap D A T) | _ => Wrong end.
Proof. intros Hl. destruct keys; [done|]. simpl. unfold dict_get. run. by rewrite Hl. Qed.

Lemma remove_loop_dict D A T l m keys :
  D !! l = Some m →
  remove_loop l keys (Heap D A T) = Return () (Heap (<[l := removed keys m]> D) A T).
Proof.
  revert D m. induction keys as [|k keys IH]; intros D m Hl; simpl.
  - run. by rewrite insert_id.
  - unfold dict_contains, dict_delitem, modify_dict. run. rewrite Hl.
    destruct (m !! k) as [x|] eqn:Hk.
    + unfold set_dicts.
      repeat first [rewrite Hl | rewrite bool_decide_eq_true_2 by eauto | progress simpl].
      rewrite (IH _ (delete k m)) by apply lookup_insert_eq.
      by rewrite insert_insert_eq.
    + rewrite bool_decide_eq_false_2 by (intros [? ?]; congruence).
      rewrite (IH _ m Hl). by rewrite delete_id.
Qed.

(** The keys of [read_values] are the requested ones, each with the value
    [store.get] gives. *)
Lemma lookup_read_values m keys (d : V) k :
  read_values m keys d !! k
  = if decide (k ∈ keys) then Some (default d (m !! k)) else None.
Proof.
  unfold read_values.
  assert (∀ acc : gmap K V,
            foldl (λ acc k, <[k := default d (m !! k)]> acc) acc keys !! k
                 = if decide (k ∈ keys) then Some (default d (m !! k)) else acc !! k)
    as Hgen; [|by rewrite Hgen, lookup_empty].
  induction keys as [|k' keys IH]; intros acc; cbn [foldl].
  - case_decide as Hin; [by apply elem_of_nil in Hin | done].
  - rewrite IH, lookup_insert.
    destruct (decide (k ∈ keys)) as [Hin|Hin], (decide (k' = k)) as [Heq|Hne],
      (decide (k ∈ k' :: keys)) as [Hin'|Hin']; subst; try done.
    + destruct Hin'. by right.
    + destruct Hin'. by right.
    + destruct Hin'. by left.
    + apply elem_of_cons in Hin' as [?|?]; congruence.
Qed.

Lemma lookup_removed keys m k :
  removed keys m !! k = if decide (k ∈ keys) then None else m !! k.
Proof.
  unfold removed. revert m. induction keys as [|k' keys IH]; intros m; cbn [foldl].
  - case_decide as Hin; [by apply elem_of_nil in Hin | done].
  - rewrite IH, lookup_delete.
    destruct (decide (k ∈ keys)) as [Hin|Hin], (decide (k' = k)) as [Heq|Hne],
      (decide (k ∈ k' :: keys)) as [Hin'|Hin']; subst; try done.
    + destruct Hin'. by right.
    + destruct Hin'. by right.
    + destruct Hin'. by left.
    + apply elem_of_cons in Hin' as [?|?]; congruence.
Qed.

(** ** [atomic_write_read], run *)

Lemma atomic_write_read_run h c v l m (w : option (gmap K V)) rk dk (d : V) :
  atomic_dicts h !! c = Some (mkAtomicDict (v, PyDict l)) →
  dicts h !! l = Some m →
  atomic_write_read c w rk dk d h
  = Return (read_values m rk d) (published c (v + 1) (removed dk (default ∅ w ∪ m)) h).
Proof.
  destruct h as [D A T]. simpl. intros Hc Hl.
  unfold atomic_write_read, get_immutable_store. run. rewrite Hc. simpl.
  rewrite (read_comprehension_dict _ _ _ _ m) by done.
  unfold dict_copy, new_dict, dict_update, modify_dict, set_dicts. run. rewrite Hl.
  simpl. rewrite lookup_insert_eq. rewrite insert_insert_eq.
  rewrite (remove_loop_dict _ _ _ _ (default ∅ w ∪ m)) by apply lookup_insert_eq.
  rewrite insert_insert_eq. unfold set_immutable_store. simpl.
  rewrite Hc. reflexivity.
Qed.

(** A call that does not return leaves the heap as it found it. *)
Lemma atomic_write_read_raise h c (w : option (gmap K V)) rk dk (d : V) e h' :
  atomic_write_read c w rk dk d h = Raise e h' → e = AttributeError ∧ h' = h.
Proof.
  destruct h as [D A T].
  unfold atomic_write_read, get_immutable_store. run.
  destruct (A !! c) as [[[v [|l]]]|] eqn:Hc; simpl; [| |done].
  - rewrite read_comprehension_None. destruct rk; simpl; by intros [= <- <-].
  - destruct (D !! l) as [m|] eqn:Hl.
    + intros Hr. pose proof (atomic_write_read_run (Heap D A T) c v l m w rk dk d Hc Hl) as Hok.
      unfold atomic_write_read, get_immutable_store in Hok. revert Hok. run.
      rewrite Hc. simpl. rewrite Hr. done.
    + rewrite read_comprehension_dangling by done.
      destruct rk; [|done]. unfold dict_copy. run. by rewrite Hl.
Qed.

Lemma atomic_write_read_return h c (w : option (gmap K V)) rk dk (d : V) res h' :
  atomic_write_read c w rk dk d h = Return res h' →
  ∃ v l m, atomic_dicts h !! c = Some (mkAtomicDict (v, PyDict l)) ∧
           dicts h !! l = Some m ∧
           res = read_values m rk d ∧
           h' = published c (v + 1) (removed dk (default ∅ w ∪ m)) h.
Proof.
  destruct (atomic_dicts h !! c) as [[[v [|l]]]|] eqn:Hc.
  - destruct h as [D A T]. unfold atomic_write_read, get_immutable_store. run.
    simpl in Hc. rewrite Hc. simpl. rewrite read_comprehension_None.
    by destruct rk.
  - destruct (dicts h !! l) as [m|] eqn:Hl.
    + rewrite (atomic_write_read_run h c v l m) by done. intros [= <- <-]. eauto 10.
    + destruct h as [D A T]. unfold atomic_write_read, get_immutable_store. run.
      simpl in Hc, Hl. rewrite Hc. simpl. rewrite read_comprehension_dangling by done.
      destruct rk; [|done]. unfold dict_copy. run. by rewrite Hl.
  - destruct h as [D A T]. unfold atomic_write_read, get_immutable_store. run.
    simpl in Hc. by rewrite Hc.
Qed.

(** ** [commit_transaction], run *)

Lemma commit_transaction_run h c t v store tx ns src tv :
  atomic_dicts h !! c = Some (mkAtomicDict (v, store)) →
  transactions h !! t = Some tx →
  data tx = Some ns → __source__ tx = Some src → __ver__ tx = Some tv →
  commit_transaction c t h
  = if bool_decide (c ≠ src) then
      Raise (DictTransactionError src tv
               "Transaction object does not match input object") h
    else if bool_decide (v ≠ tv) then
      Raise (DictTransactionError src tv
               ("Expected version: " +:+ pretty tv +:+
                " - Actual version: " +:+ pretty v)) h
    else Return true (committed_heap c t (v + 1) ns tx h).
Proof.
  destruct h as [D A T]. simpl. intros Hc Ht Hd Hs Hv.
  unfold commit_transaction, validate_transaction, ver, getattr, the_transaction,
    get_immutable_store.
  run. rewrite Hc. simpl.
  repeat first [rewrite Ht | rewrite Hd | rewrite Hs | progress simpl].
  case_bool_decide as Hsrc; simpl.
  - by repeat first [rewrite Ht | rewrite Hs | rewrite Hv | progress simpl].
  - repeat first [rewrite Hc | rewrite Ht | rewrite Hv | progress simpl].
    case_bool_decide as Hver; simpl.
    + by repeat first [rewrite Ht | rewrite Hs | rewrite Hv | progress simpl].
    + unfold set_immutable_store, set_data, modify_transaction. simpl.
      rewrite Hc. simpl. by rewrite Ht.
Qed.

(** A commit that raises has not touched the heap. *)
Lemma commit_transaction_raise h c t e h' :
  commit_transaction c t h = Raise e h' → h' = h.
Proof.
  destruct h as [D A T].
  destruct (A !! c) as [[[v store]]|] eqn:Hc;
    [|unfold commit_transaction, get_immutable_store; run; by rewrite Hc].
  destruct (T !! t) as [[[ns|] [src|] [tv|] cm]|] eqn:Ht.
  1: { erewrite commit_transaction_run by done.
       repeat case_bool_decide; by intros [= <- <-]. }
  all: unfold commit_transaction, validate_transaction, ver, getattr, the_transaction,
         get_immutable_store; run; rewrite Hc; simpl; rewrite ?Ht; simpl;
         rewrite ?Ht; simpl; try done; try (by intros [= <- <-]).
  all: case_bool_decide; simpl; rewrite ?Hc, ?Ht; simpl; rewrite ?Ht; simpl;
         try done; by intros [= <- <-].
Qed.

(** A commit that returns has found a transaction of [c], begun at the
    current version, and has published its store. *)
Lemma commit_transaction_return h c t b h' :
  commit_transaction c t h = Return b h' →
  ∃ v store tx ns,
    atomic_dicts h !! c = Some (mkAtomicDict (v, store)) ∧
    transactions h !! t = Some tx ∧
    data tx = Some ns ∧ __source__ tx = Some c ∧ __ver__ tx = Some v ∧
    b = true ∧ h' = committed_heap c t (v + 1) ns tx h.
Proof.
  destruct h as [D A T].
  destruct (A !! c) as [[[v store]]|] eqn:Hc;
    [|unfold commit_transaction, get_immutable_store; run; by rewrite Hc].
  destruct (T !! t) as [[[ns|] [src|] [tv|] cm]|] eqn:Ht.
  1: { erewrite commit_transaction_run by done.
       repeat case_bool_decide; try done. intros [= <- <-].
       assert (c = src) as <- by (by destruct (decide (c = src))).
       assert (v = tv) as <- by (by destruct (decide (v = tv))).
       eauto 12. }
  all: unfold commit_transaction, validate_transaction, ver, getattr, the_transaction,
         get_immutable_store; run; rewrite Hc; simpl; rewrite ?Ht; simpl;
         rewrite ?Ht; simpl; try done.
  all: case_bool_decide; simpl; rewrite ?Hc, ?Ht; simpl; rewrite ?Ht; simpl; done.
Qed.


Lemma snapshot_published c v m h : snapshot c (published c v m h) v m.
Proof.
  exists (fresh (dom (dicts h))). unfold published. simpl.
  by rewrite !lookup_insert_eq.
Qed.

(** The dicts of the heap are still there, unchanged, after a publication. *)
Lemma published_dicts c v m h l m0 :
  dicts h !! l = Some m0 → dicts (published c v m h) !! l = Some m0.
Proof.
  intros Hl. unfold published. simpl. rewrite lookup_insert_ne; [done|].
  intros <-. by apply (is_fresh (dom (dicts h))), elem_of_dom.
Qed.

Lemma atomic_waitfree_read_run h c v m keys (d : V) :
  snapshot c h v m →
  atomic_waitfree_read c keys d h = Return (read_values m keys d) h.
Proof.
  intros (l & Hc & Hl). destruct h as [D A T]. simpl in *.
  unfold atomic_waitfree_read, get_immutable_store. run. rewrite Hc. simpl.
  by apply read_comprehension_dict.
Qed.

(** ** The atomic operations *)

(** C1. [atomic_write_read] returns, for the keys of [read_keys] and no
    other, the value the key had in the mapping the call found
    ([default_value] when absent), whatever [write_dict] and [remove_keys]
    are; a wait-free read of the same keys after the call reads the mapping
    the call published. *)
Theorem atomic_write_read_reads_before h c v l m (w : option (gmap K V))
    rk dk (d : V) :
  atomic_dicts h !! c = Some (mkAtomicDict (v, PyDict l)) →
  dicts h !! l = Some m →
  let m' := removed dk (default ∅ w ∪ m) in
  let h' := published c (v + 1) m' h in
  atomic_write_read c w rk dk d h = Return (read_values m rk d) h' ∧
  (∀ k, read_values m rk d !! k
        = if decide (k ∈ rk) then Some (default d (m !! k)) else None) ∧
  atomic_waitfree_read c rk d h' = Return (read_values m' rk d) h'.
Proof.
  intros Hc Hl m' h'. split; [by apply (atomic_write_read_run h c v l m)|].
  split; [intros k; apply lookup_read_values|].
  apply (atomic_waitfree_read_run h' c (v + 1) m'). apply snapshot_published.
Qed.

(** C6. [atomic_write_read] publishes, as the next version, the mapping it
    found with the entries of [write_dict] written over it and the keys of
    [remove_keys] then removed: a key of [remove_keys] is absent (also when
    [write_dict] has it, and without error when it was absent already), any
    other key has the value of [write_dict], or else the value it had.  The
    dict the call found is left as it was. *)
Theorem atomic_write_read_publishes h c v l m (w : option (gmap K V))
    rk dk (d : V) :
  atomic_dicts h !! c = Some (mkAtomicDict (v, PyDict l)) →
  dicts h !! l = Some m →
  ∃ res h' m',
    atomic_write_read c w rk dk d h = Return res h' ∧
    snapshot c h' (v + 1) m' ∧
    m' = removed dk (default ∅ w ∪ m) ∧
    (∀ k, m' !! k = if decide (k ∈ dk) then None
                    else match default ∅ w !! k with
                         | Some x => Some x
                         | None => m !! k
                         end) ∧
    (∀ k, k ∈ dk → m' !! k = None) ∧
    dicts h' !! l = Some m.
Proof.
  intros Hc Hl. eexists _, _, _.
  split; [by apply (atomic_write_read_run h c v l m)|].
  split; [apply snapshot_published|]. split; [done|].
  assert (∀ k, removed dk (default ∅ w ∪ m) !! k
               = if decide (k ∈ dk) then None
                 else match default ∅ w !! k with
                      | Some x => Some x
                      | None => m !! k
                      end) as Hlook.
  { intros k. rewrite lookup_removed. destruct (decide (k ∈ dk)); [done|].
    rewrite lookup_union. by destruct (default ∅ w !! k), (m !! k). }
  split; [done|]. split; [|by apply published_dicts].
  intros k Hk. rewrite Hlook. by rewrite decide_True.
Qed.

(** C9. [pop(key, default_value)] publishes the mapping it found without
    [key] as the next version, and returns the value [key] had, or
    [default_value] when it had none; in that case the published mapping
    equals the one found. *)
Theorem pop_removes_and_returns h c v l m k (d : V) :
  atomic_dicts h !! c = Some (mkAtomicDict (v, PyDict l)) →
  dicts h !! l = Some m →
  ∃ h', pop c k d h = Return (default d (m !! k)) h' ∧
        snapshot c h' (v + 1) (delete k m) ∧
        ver c h' = Return (v + 1) h' ∧
        (m !! k = None → snapshot c h' (v + 1) m).
Proof.
  intros Hc Hl. exists (published c (v + 1) (delete k m) h).
  assert (removed [k] (default ∅ None ∪ m) = delete k m) as Hm.
  { unfold removed. simpl. by rewrite (left_id_L ∅ (∪)). }
  split; [|split; [apply snapshot_published|split]].
  - unfold pop. run. rewrite (atomic_write_read_run h c v l m) by done.
    rewrite Hm, lookup_read_values. by rewrite decide_True by apply list_elem_of_here.
  - unfold ver, get_immutable_store, published. run. by rewrite lookup_insert_eq.
  - intros Hk. rewrite <- (delete_id m k) at 2 by done. apply snapshot_published.
Qed.


(** ** Transactions *)

Lemma validate_transaction_return h c t b h' :
  validate_transaction t c h = Return b h' →
  ∃ tx v store,
    transactions h !! t = Some tx ∧ __source__ tx = Some c ∧
    atomic_dicts h !! c = Some (mkAtomicDict (v, store)) ∧ __ver__ tx = Some v ∧
    b = true ∧ h' = h.
Proof.
  destruct h as [D A T].
  unfold validate_transaction, ver, getattr, the_transaction, get_immutable_store.
  run. destruct (T !! t) as [[dt [src|] [tv|] cm]|] eqn:Ht; simpl; try done.
  all: case_bool_decide as Hsrc; repeat first [rewrite Ht | progress simpl]; try done.
  all: destruct (A !! c) as [[[v store]]|] eqn:Hc;
         repeat first [rewrite Ht | progress simpl]; try done.
  case_bool_decide as Hver; repeat first [rewrite Ht | progress simpl]; try done.
  intros [= <- <-].
  assert (c = src) as <- by (by destruct (decide (c = src))).
  assert (v = tv) as <- by (by destruct (decide (v = tv))).
  eauto 10.
Qed.

(** C2. For a transaction that carries its attributes, [commit_transaction]
    on [c] raises [DictTransactionError] when the transaction's source is
    not [c] or its version is not the current one of [c]; the error carries
    the transaction's source, its version and a message, and the heap, so
    the published version and mapping of [c], is exactly as before.  No
    raising commit, whatever it raises, changes the heap. *)
Theorem commit_transaction_rejects h c t v store tx ns src tv :
  atomic_dicts h !! c = Some (mkAtomicDict (v, store)) →
  transactions h !! t = Some tx →
  data tx = Some ns → __source__ tx = Some src → __ver__ tx = Some tv →
  src ≠ c ∨ tv ≠ v →
  (∃ msg, commit_transaction c t h = Raise (DictTransactionError src tv msg) h) ∧
  get_immutable_store c h = Return (v, store) h ∧
  (∀ e h', commit_transaction c t h = Raise e h' → h' = h).
Proof.
  intros Hc Ht Hd Hs Hv Hne.
  split; [|split; [|intros e h'; apply commit_transaction_raise]].
  - rewrite (commit_transaction_run h c t v store tx ns src tv) by done.
    case_bool_decide as Hsrc; [by eexists|].
    case_bool_decide as Hver; [by eexists|].
    destruct Hne as [Hne|Hne]; [|done].
    destruct (decide (c = src)); congruence.
  - unfold get_immutable_store. by rewrite Hc.
Qed.

(** C5, as the code has it.  For a transaction with a [data] attribute
    whose validation succeeds, [commit_transaction] publishes that store as
    the next version, sets [data] to [None], returns [True] and leaves the
    [__committed__] flag as it was; the flag is set by
    [DictTransaction.commit], which stores what [commit_transaction]
    returned. *)
Theorem commit_transaction_publishes h c t v store tx ns :
  atomic_dicts h !! c = Some (mkAtomicDict (v, store)) →
  transactions h !! t = Some tx →
  data tx = Some ns →
  validate_transaction t c h = Return true h →
  let h1 := committed_heap c t (v + 1) ns tx h in
  commit_transaction c t h = Return true h1 ∧
  get_immutable_store c h1 = Return (v + 1, ns) h1 ∧
  (∀ flag, __committed__ tx = Some flag →
           getattr __committed__ t h1 = Return flag h1) ∧
  (__committed__ tx = Some false →
   ∃ h2, commit t h = Return () h2 ∧
         getattr __committed__ t h2 = Return true h2 ∧
         get_immutable_store c h2 = Return (v + 1, ns) h2).
Proof.
  intros Hc Ht Hd Hval h1.
  apply validate_transaction_return in Hval
    as (tx' & v' & store' & Ht' & Hs & Hc' & Hv & _ & _).
  assert (tx' = tx) as -> by congruence.
  assert (v' = v) as -> by congruence.
  assert (commit_transaction c t h = Return true h1) as Hrun.
  { rewrite (commit_transaction_run h c t v store tx ns c v) by done.
    by rewrite !bool_decide_eq_false_2 by (intros Hne; by apply Hne). }
  split; [done|]. split; [|split].
  - unfold get_immutable_store, h1, committed_heap. simpl.
    by rewrite lookup_insert_eq.
  - intros flag Hflag. unfold getattr, the_transaction, h1, committed_heap. run.
    rewrite lookup_insert_eq. simpl. by rewrite Hflag.
  - intros Hflag. destruct h as [D A T]. simpl in *.
    unfold commit, getattr, the_transaction. run.
    repeat first [rewrite Ht | rewrite Hflag | rewrite Hs | progress simpl].
    rewrite Hrun. unfold h1, committed_heap, set_committed, modify_transaction. simpl.
    rewrite lookup_insert_eq. simpl.
    eexists. split; [done|]. unfold get_immutable_store, set_transactions. simpl.
    by rewrite !lookup_insert_eq.
Qed.

(** C10. After [commit_transaction] has returned, the transaction's [data]
    is [None]: the store it held is the published one, and an item
    assignment or deletion through the transaction raises [TypeError]
    without touching the heap. *)
Theorem commit_transaction_drops_data h c t b h' :
  commit_transaction c t h = Return b h' →
  getattr data t h' = Return PyNone h' ∧
  (∃ v ns, getattr data t h = Return ns h ∧
           get_immutable_store c h' = Return (v, ns) h') ∧
  (∀ k (x : V), UserDict_setitem t k x h' = Raise TypeError h') ∧
  (∀ k : K, UserDict_delitem t k h' = Raise TypeError h').
Proof.
  intros (v & store & tx & ns & Hc & Ht & Hd & Hs & Hv & -> & ->)
    %commit_transaction_return.
  assert (getattr data t (committed_heap c t (v + 1) ns tx h)
          = Return PyNone (committed_heap c t (v + 1) ns tx h)) as Hdata.
  { unfold getattr, the_transaction, committed_heap. run.
    by rewrite lookup_insert_eq. }
  split; [done|]. split; [|split].
  - exists (v + 1), ns. split.
    + destruct h as [D A T]. simpl in *. unfold getattr, the_transaction. run.
      by rewrite Ht, Hd.
    + unfold get_immutable_store, committed_heap. simpl. by rewrite lookup_insert_eq.
  - intros k x. unfold UserDict_setitem. run. by rewrite Hdata.
  - intros k. unfold UserDict_delitem. run. by rewrite Hdata.
Qed.

(** Before the commit the same assignment does reach the dict the
    transaction holds: it is the aliasing that [data = None] cuts. *)
Lemma UserDict_setitem_writes D A T t tx l m k (x : V) :
  T !! t = Some tx → data tx = Some (PyDict l) → D !! l = Some m →
  UserDict_setitem t k x (Heap D A T) = Return () (Heap (<[l := <[k := x]> m]> D) A T).
Proof.
  intros Ht Hd Hl. unfold UserDict_setitem, getattr, the_transaction, dict_setitem,
    modify_dict. run. rewrite Ht, Hd. simpl. by rewrite Hl.
Qed.

(** [UserDict.__init__] called on the transaction itself copies the store
    into a fresh dict held by [data]. *)
Lemma UserDict_init_copies D A T t tx l m :
  T !! t = Some tx → D !! l = Some m →
  let l' := fresh (dom D) in
  UserDict_init (ObjTransaction t) (PyDict l) (Heap D A T)
  = Return () (Heap (<[l' := m]> D) A
                 (<[t := mkDictTransaction (Some (PyDict l')) (__source__ tx)
                           (__ver__ tx) (__committed__ tx)]> T)).
Proof.
  intros Ht Hl l'.
  assert (l' ≠ l) as Hne.
  { intros Heq. apply (is_fresh (dom D)). fold l'. rewrite Heq. by apply elem_of_dom. }
  unfold UserDict_init, new_dict, obj_set_data, set_data, modify_transaction,
    dict_update, modify_dict, set_dicts, set_transactions. run.
  fold l'. rewrite Ht. simpl. rewrite lookup_insert_ne by done. rewrite Hl. simpl.
  rewrite lookup_insert_eq, insert_insert_eq. simpl.
  by rewrite (right_id_L ∅ (∪)).
Qed.

(** The constructor call of [begin_transaction] raises in its first
    statement; what it leaves behind is an attribute-less instance and an
    empty dict that nothing refers to. *)
Lemma begin_transaction_run h c ad :
  atomic_dicts h !! c = Some ad →
  ∃ h', begin_transaction c h = Raise AttributeError h' ∧
        atomic_dicts h' = atomic_dicts h ∧
        (∀ l m, dicts h !! l = Some m → dicts h' !! l = Some m).
Proof.
  intros Hc. destruct h as [D A T]. simpl in *.
  unfold begin_transaction, get_immutable_store, DictTransaction_call,
    DictTransaction_init, UserDict_init, new_transaction, new_dict, obj_set_data.
  run. rewrite Hc. destruct ad as [[v store]]. simpl.
  eexists. split; [done|]. split; [done|]. simpl. intros l m Hl.
  rewrite lookup_insert_ne; [done|].
  intros <-. by apply (is_fresh (dom D)), elem_of_dom.
Qed.

(** C4, on the code.  [begin_transaction] returns no transaction: the
    constructor hands the store to [UserDict.__init__] in the place of
    [self], and the assignment [self.data = {}] on a dict (or on [None])
    raises [AttributeError].  The published pair and the dicts of the heap
    are untouched. *)
Theorem begin_transaction_raises h c ad :
  atomic_dicts h !! c = Some ad →
  (∃ h', begin_transaction c h = Raise AttributeError h' ∧
         atomic_dicts h' = atomic_dicts h ∧
         (∀ l m, dicts h !! l = Some m → dicts h' !! l = Some m)) ∧
  (∀ t h', begin_transaction c h ≠ Return t h').
Proof.
  intros Hc. destruct (begin_transaction_run h c ad Hc) as (h1 & Hrun & Hrest).
  split; [by exists h1|]. intros t h'. by rewrite Hrun.
Qed.

(** C7, on the code.  [run_transaction] leaves on its first round with the
    [AttributeError] of [begin_transaction], which [except
    DictTransactionError] does not catch: the function passed in is never
    called, whatever it is. *)
Theorem run_transaction_raises {R} fuel h c ad (transaction_func : loc → M R) :
  atomic_dicts h !! c = Some ad →
  ∃ h', run_transaction (S fuel) c transaction_func h = Some (Raise AttributeError h') ∧
        atomic_dicts h' = atomic_dicts h.
Proof.
  intros Hc. destruct (begin_transaction_run h c ad Hc) as (h' & Hb & Heq & _).
  exists h'. split; [|done]. simpl. unfold run_transaction_try. run. by rewrite Hb.
Qed.


(** ** Versions *)

Lemma clear_run h c v store :
  atomic_dicts h !! c = Some (mkAtomicDict (v, store)) →
  clear c h = Return () (published c (v + 1) ∅ h).
Proof.
  intros Hc. destruct h as [D A T]. simpl in *.
  unfold clear, get_immutable_store, new_dict, set_immutable_store. run.
  by rewrite Hc; simpl; rewrite Hc.
Qed.

(** A call that returns has moved the version of [c] one up. *)
Lemma run_call_return h c (call : @call K _ _ V) u h' :
  run_call c call h = Return u h' →
  ∃ v store store',
    atomic_dicts h !! c = Some (mkAtomicDict (v, store)) ∧
    atomic_dicts h' !! c = Some (mkAtomicDict (v + 1, store')).
Proof.
  destruct call as [w rk dk d|t|]; simpl; run.
  - destruct (atomic_write_read c w rk dk d h) as [res h1| |] eqn:Hrun; [|done..].
    intros [= _ <-].
    apply atomic_write_read_return in Hrun as (v & l & m & Hc & _ & _ & ->).
    exists v, (PyDict l). eexists. split; [done|].
    unfold published. simpl. by rewrite lookup_insert_eq.
  - destruct (commit_transaction c t h) as [b h1| |] eqn:Hrun; [|done..].
    intros [= _ <-].
    apply commit_transaction_return in Hrun
      as (v & store & tx & ns & Hc & _ & _ & _ & _ & _ & ->).
    exists v, store, ns. split; [done|].
    unfold committed_heap. simpl. by rewrite lookup_insert_eq.
  - destruct (atomic_dicts h !! c) as [[[v store]]|] eqn:Hc.
    + rewrite (clear_run h c v store Hc). intros [= _ <-].
      exists v, store. eexists. split; [done|].
      unfold published. simpl. by rewrite lookup_insert_eq.
    + destruct h as [D A T]. simpl in *. unfold clear, get_immutable_store. run.
      by rewrite Hc.
Qed.

(** A call that raises has published nothing. *)
Lemma run_call_raise h c (call : @call K _ _ V) e h' :
  run_call c call h = Raise e h' → h' = h.
Proof.
  destruct call as [w rk dk d|t|]; simpl; run.
  - destruct (atomic_write_read c w rk dk d h) as [res h1|e1 h1|] eqn:Hrun; [done| |done].
    intros [= _ <-]. by apply atomic_write_read_raise in Hrun as [_ ->].
  - destruct (commit_transaction c t h) as [b h1|e1 h1|] eqn:Hrun; [done| |done].
    intros [= _ <-]. by apply commit_transaction_raise in Hrun.
  - destruct h as [D A T]. unfold clear, get_immutable_store, new_dict,
      set_immutable_store. run.
    destruct (A !! c) as [[[v store]]|] eqn:Hc; simpl; [|done]. by rewrite Hc.
Qed.

Lemma published_versions_from h c v store (calls : list (@call K _ _ V)) :
  atomic_dicts h !! c = Some (mkAtomicDict (v, store)) →
  published_versions c calls h
  = (λ i, v + Z.of_nat i) <$> seq 1 (length (published_versions c calls h)).
Proof.
  revert h v store. induction calls as [|call calls IH]; intros h v store Hc; [done|].
  simpl. destruct (run_call c call h) as [u h1|e h1|] eqn:Hrun; [| |done].
  - apply run_call_return in Hrun as (v' & st & st' & Hc' & Hc1).
    assert (v' = v) as -> by congruence.
    assert (ver c h1 = Return (v + 1) h1) as ->.
    { unfold ver, get_immutable_store. run. by rewrite Hc1. }
    simpl. f_equal; try lia.
    rewrite (IH h1 (v + 1) st' Hc1) at 1.
    rewrite <- (fmap_S_seq 1), <- list_fmap_compose.
    apply list_fmap_ext. intros _ i _. simpl. lia.
  - apply run_call_raise in Hrun as ->. by apply (IH h v store).
Qed.

(** C3. Starting from version 0, the versions that a sequence of
    [atomic_write_read], [commit_transaction] and [clear] calls publishes,
    one per call that returned, are 1, 2, 3, ...: each publication is one
    above the one before, they increase strictly, and no two are equal. *)
Theorem published_versions_consecutive h c store (calls : list (@call K _ _ V)) :
  atomic_dicts h !! c = Some (mkAtomicDict (0, store)) →
  let pv := published_versions c calls h in
  pv = Z.of_nat <$> seq 1 (length pv) ∧
  (∀ i x, pv !! i = Some x → x = Z.of_nat i + 1) ∧
  (∀ i j x y, pv !! i = Some x → pv !! j = Some y → (i < j)%nat → x < y) ∧
  NoDup pv.
Proof.
  intros Hc pv.
  assert (pv = Z.of_nat <$> seq 1 (length pv)) as Heq.
  { unfold pv. rewrite (published_versions_from h c 0 store calls Hc) at 1.
    apply list_fmap_ext. intros _ i _. simpl. lia. }
  assert (∀ i x, pv !! i = Some x → x = Z.of_nat i + 1) as Hnth.
  { intros i x. rewrite Heq, list_lookup_fmap.
    intros (n & Hn & ->)%fmap_Some. apply lookup_seq in Hn as [-> _]. lia. }
  split; [done|]. split; [done|]. split.
  - intros i j x y Hi Hj Hlt. apply Hnth in Hi, Hj. lia.
  - apply NoDup_alt. intros i j x Hi Hj.
    apply Hnth in Hi, Hj. lia.
Qed.


(** ** Threads *)

Implicit Types (s : @system K _ _ V) (w : @writer K _ _ V) (r : @reader K _ _ V).

Lemma reader_step_heap c r h r' h' :
  reader_step c r h = Some (r', h') → h' = h.
Proof.
  destruct h as [D A T].
  destruct r as [keys d|store [|k keys] acc d|res]; simpl; unfold statement.
  - unfold get_immutable_store. simpl. destruct (A !! c) as [[[v store]]|]; [|done].
    by intros [= _ <-].
  - by intros [= _ <-].
  - unfold dict_get, the_dict. run. destruct store as [|l]; simpl; [by intros [= _ <-]|].
    destruct (D !! l); [|done]. by intros [= _ <-].
  - done.
Qed.

Lemma writer_step_effect c w h lock w' h' lock' :
  writer_step c w h lock = Some (w', h', lock') →
  (h' = h ∧ (local_store_of w' = local_store_of w ∨ local_store_of w' = None)) ∨
  (∃ l0 m0, local_store_of w = None ∧
            local_store_of w' = Some (fresh (dom (dicts h))) ∧
            dicts h !! l0 = Some m0 ∧
            h' = set_dicts (<[fresh (dom (dicts h)) := m0]> (dicts h)) h) ∨
  (∃ l m1 m2, local_store_of w = Some l ∧ local_store_of w' = Some l ∧
              dicts h !! l = Some m1 ∧
              h' = set_dicts (<[l := m2]> (dicts h)) h) ∨
  (∃ l v, local_store_of w = Some l ∧ local_store_of w' = None ∧
          is_Some (atomic_dicts h !! c) ∧
          h' = set_atomic_dicts (<[c := mkAtomicDict (v, PyDict l)]> (atomic_dicts h)) h).
Proof.
  destruct h as [D A T].
  destruct w as [a|a|a v store [|k keys] acc|a v l rv|a v l [|k keys] rv|res|res];
    simpl; unfold statement.
  - destruct lock; [done|]. intros [= <- <- <-]. left. eauto.
  - unfold get_immutable_store. simpl. destruct (A !! c) as [[[v store]]|]; [|done].
    simpl. intros [= <- <- <-]. left. eauto.
  - unfold dict_copy, the_dict, new_dict. run. destruct store as [|l]; simpl.
    + intros [= <- <- <-]. left. eauto.
    + destruct (D !! l) as [m0|] eqn:Hl; [|done]. simpl. intros [= <- <- <-].
      right. left. exists l, m0. eauto.
  - unfold dict_get, the_dict. run. destruct store as [|l]; simpl.
    + intros [= <- <- <-]. left. eauto.
    + destruct (D !! l); [|done]. simpl. intros [= <- <- <-]. left. eauto.
  - unfold dict_update, modify_dict. simpl. destruct (D !! l) as [m1|] eqn:Hl; [|done].
    simpl. intros [= <- <- <-]. right. right. left. eauto 10.
  - unfold set_immutable_store. simpl. destruct (A !! c) as [ad|] eqn:Hc; [|done].
    simpl. intros [= <- <- <-]. right. right. right. eauto 10.
  - unfold dict_contains, dict_delitem, the_dict, modify_dict. run.
    destruct (D !! l) as [m1|] eqn:Hl; [|done]. simpl.
    case_bool_decide as Hk; simpl.
    + repeat first [rewrite Hl | rewrite bool_decide_eq_true_2 by done | progress simpl].
      intros [= <- <- <-]. right. right. left. eauto 10.
    + intros [= <- <- <-]. left. eauto.
  - intros [= <- <- <-]. left. eauto.
  - done.
Qed.

(** Where the writers of a state after a step come from. *)
Lemma writers_insert (ws : list (@writer K _ _ V)) i w w' j w2 :
  ws !! i = Some w → <[i := w']> ws !! j = Some w2 →
  (j = i ∧ w2 = w') ∨ (j ≠ i ∧ ws !! j = Some w2).
Proof.
  intros Hi [(-> & -> & _)|(Hne & Hj)]%list_lookup_insert_Some; [by left|].
  right. split; [congruence|done].
Qed.

Lemma writers_call (ws : list (@writer K _ _ V)) a j w2 :
  (ws ++ [AwrCall a]) !! j = Some w2 →
  ws !! j = Some w2 ∨ (w2 = AwrCall a ∧ ws !! j = None).
Proof.
  intros [Hj|[Hlen Hj]]%lookup_app_Some; [by left|]. right.
  split; [|by apply lookup_ge_None_2].
  apply list_lookup_singleton_Some in Hj as [_ <-]. done.
Qed.

Lemma holds_step c s s' l m :
  sys_step c s s' → holds s l m → holds s' l m.
Proof.
  intros Hstep [Hl Hws]. destruct Hstep as [h h' lock r r' ws Hr
    |h h' lock lock' r ws i w w' Hi Hw|h lock r ws a]; simpl in *.
  - apply reader_step_heap in Hr as ->. by split.
  - assert (∀ j w2, <[i := w']> ws !! j = Some w2 → local_store_of w' ≠ Some l →
                    local_store_of w2 ≠ Some l) as Hothers.
    { intros j w2 Hj Hw'. destruct (writers_insert _ _ _ _ _ _ Hi Hj) as [[_ ->]|[_ Hj']];
        [done|by eapply Hws]. }
    pose proof (Hws i w Hi) as Hwl.
    apply writer_step_effect in Hw
      as [[-> Hloc]|[(l0 & m0 & Hnone & Hloc & Hl0 & ->)
         |[(l1 & m1 & m2 & Hloc & Hloc' & Hl1 & ->)|(l1 & v & Hloc & Hloc' & _ & ->)]]];
      unfold set_dicts, set_atomic_dicts; simpl.
    + split; [done|]. intros j w2 Hj. apply (Hothers j w2 Hj).
      destruct Hloc as [-> | ->]; done.
    + assert (fresh (dom (dicts h)) ≠ l) as Hne.
      { intros Heq. apply (is_fresh (dom (dicts h))). rewrite Heq. by apply elem_of_dom. }
      split; simpl; [by rewrite lookup_insert_ne|].
      intros j w2 Hj. apply (Hothers j w2 Hj). rewrite Hloc. congruence.
    + assert (l1 ≠ l) as Hne by congruence.
      split; simpl; [by rewrite lookup_insert_ne|].
      intros j w2 Hj. apply (Hothers j w2 Hj). rewrite Hloc'. congruence.
    + split; [done|]. intros j w2 Hj. apply (Hothers j w2 Hj). by rewrite Hloc'.
  - split; [done|]. intros j w2 [Hj|[-> _]]%writers_call; [by eapply Hws|done].
Qed.

Lemma well_formed_step c s s' :
  well_formed c s → sys_step c s s' → well_formed c s'.
Proof.
  intros ((v & l & m & Hc & Hholds) & W2 & W3) Hstep.
  pose proof (holds_step c s s' l m Hstep Hholds) as Hholds'.
  destruct Hstep as [h h' lock r r' ws Hr
    |h h' lock lock' r ws i w w' Hi Hw|h lock r ws a]; simpl in *.
  - apply reader_step_heap in Hr as ->.
    split; [by exists v, l, m|]. by split.
  - apply writer_step_effect in Hw
      as [[-> Hloc]|[(l0 & m0 & Hnone & Hloc & Hl0 & ->)
         |[(l1 & m1 & m2 & Hloc & Hloc' & Hl1 & ->)|(l1 & v1 & Hloc & Hloc' & _ & ->)]]].
    + assert (∀ j w2 l2, <[i := w']> ws !! j = Some w2 → local_store_of w2 = Some l2 →
                ∃ w1, ws !! j = Some w1 ∧ local_store_of w1 = Some l2) as Hsub.
      { intros j w2 l2 Hj Hl2.
        destruct (writers_insert _ _ _ _ _ _ Hi Hj) as [[-> ->]|[_ Hj']]; [|eauto].
        exists w. split; [done|]. destruct Hloc as [<- | Hloc]; congruence. }
      split; [by exists v, l, m|]. split.
      * intros j w2 l2 Hj Hl2. destruct (Hsub j w2 l2 Hj Hl2) as (w1 & ? & ?). eauto.
      * intros j1 j2 w1 w2 l2 Hj1 Hj2 Hl1 Hl2.
        destruct (Hsub j1 w1 l2 Hj1 Hl1) as (? & ? & ?).
        destruct (Hsub j2 w2 l2 Hj2 Hl2) as (? & ? & ?). eauto.
    + set (l' := fresh (dom (dicts h))) in *.
      assert (dicts h !! l' = None) as Hfresh by apply not_elem_of_dom, is_fresh.
      assert (∀ j w2 l2, <[i := w']> ws !! j = Some w2 → local_store_of w2 = Some l2 →
                (j = i ∧ l2 = l') ∨
                (j ≠ i ∧ l2 ≠ l' ∧ ∃ w1, ws !! j = Some w1 ∧ local_store_of w1 = Some l2))
        as Hsub.
      { intros j w2 l2 Hj Hl2.
        destruct (writers_insert _ _ _ _ _ _ Hi Hj) as [[-> ->]|[Hne Hj']].
        - left. split; [done|]. congruence.
        - right. split; [done|]. split; [|eauto].
          intros Heq. rewrite Heq in Hl2.
          destruct (W2 j w2 l' Hj' Hl2) as [? ?]. congruence. }
      split; [by exists v, l, m|]. unfold set_dicts. simpl. split.
      * intros j w2 l2 Hj Hl2.
        destruct (Hsub j w2 l2 Hj Hl2) as [[_ ->]|(_ & Hne & w1 & ? & ?)].
        -- by rewrite lookup_insert_eq.
        -- rewrite lookup_insert_ne by done. eauto.
      * intros j1 j2 w1 w2 l2 Hj1 Hj2 Hl1 Hl2.
        destruct (Hsub j1 w1 l2 Hj1 Hl1) as [[Hi1 Heq1]|(_ & Hne1 & ? & ? & ?)];
          destruct (Hsub j2 w2 l2 Hj2 Hl2) as [[Hi2 Heq2]|(_ & Hne2 & ? & ? & ?)];
          try done; [congruence|eauto].
    + assert (∀ j w2 l2, <[i := w']> ws !! j = Some w2 → local_store_of w2 = Some l2 →
                ∃ w1, ws !! j = Some w1 ∧ local_store_of w1 = Some l2) as Hsub.
      { intros j w2 l2 Hj Hl2.
        destruct (writers_insert _ _ _ _ _ _ Hi Hj) as [[-> ->]|[_ Hj']]; [|eauto].
        exists w. split; [done|]. congruence. }
      split; [by exists v, l, m|]. unfold set_dicts. simpl. split.
      * intros j w2 l2 Hj Hl2. destruct (Hsub j w2 l2 Hj Hl2) as (w1 & ? & ?).
        apply lookup_insert_is_Some'. right. eauto.
      * intros j1 j2 w1 w2 l2 Hj1 Hj2 Hl1' Hl2.
        destruct (Hsub j1 w1 l2 Hj1 Hl1') as (? & ? & ?).
        destruct (Hsub j2 w2 l2 Hj2 Hl2) as (? & ? & ?). eauto.
    + assert (∀ j w2 l2, <[i := w']> ws !! j = Some w2 → local_store_of w2 = Some l2 →
                j ≠ i ∧ ∃ w1, ws !! j = Some w1 ∧ local_store_of w1 = Some l2) as Hsub.
      { intros j w2 l2 Hj Hl2.
        destruct (writers_insert _ _ _ _ _ _ Hi Hj) as [[-> ->]|[? Hj']]; [|eauto].
        congruence. }
      unfold set_atomic_dicts. simpl. split; [|split].
      * destruct (W2 i w l1 Hi Hloc) as [m1 Hm1].
        exists v1, l1, m1. simpl. split; [by rewrite lookup_insert_eq|]. split; [done|].
        simpl. intros j w2 Hj Hl2.
        destruct (Hsub j w2 l1 Hj Hl2) as (Hne & w1 & Hj1 & Hl1).
        apply Hne. by apply (W3 j i w1 w l1).
      * intros j w2 l2 Hj Hl2. destruct (Hsub j w2 l2 Hj Hl2) as (_ & w1 & ? & ?). eauto.
      * intros j1 j2 w1 w2 l2 Hj1 Hj2 Hl1 Hl2.
        destruct (Hsub j1 w1 l2 Hj1 Hl1) as (_ & ? & ? & ?).
        destruct (Hsub j2 w2 l2 Hj2 Hl2) as (_ & ? & ? & ?). eauto.
  - assert (∀ j w2 l2, (ws ++ [AwrCall a]) !! j = Some w2 → local_store_of w2 = Some l2 →
              ws !! j = Some w2) as Hsub.
    { intros j w2 l2 [Hj|[-> _]]%writers_call; [done|]. done. }
    split; [by exists v, l, m|]. split.
    + intros j w2 l2 Hj Hl2. eauto.
    + intros j1 j2 w1 w2 l2 Hj1 Hj2 Hl1 Hl2. eauto.
Qed.

Lemma read_values_snoc m done k (d : V) :
  read_values m (done ++ [k]) d = <[k := default d (m !! k)]> (read_values m done d).
Proof. unfold read_values. by rewrite foldl_app. Qed.

Lemma reader_invariant_step c s0 keys (d : V) s s' :
  rtc (sys_step c) s0 s → well_formed c s → sys_step c s s' →
  reader_invariant c s0 keys d s → reader_invariant c s0 keys d s'.
Proof.
  intros Hrun ((v & l & m & Hc & Hholds) & _) Hstep Hinv.
  pose proof (λ l m, holds_step c s s' l m Hstep) as Hkeep.
  assert (sys_reader s' = sys_reader s → reader_invariant c s0 keys d s') as Hother.
  { intros Hr. unfold reader_invariant in *. rewrite Hr.
    destruct (sys_reader s) as [keys' d'|store keys' acc d'|[res|e]]; [done| | |done].
    - destruct Hinv as (-> & s1 & v1 & l1 & m1 & done & -> & Hs1 & Hs & Hc1 & Hl1 & Hh & -> & ->).
      split; [done|]. exists s1, v1, l1, m1, done.
      split_and!; try done; [by eapply rtc_r|by apply Hkeep].
    - destruct Hinv as (s1 & v1 & m1 & Hs1 & Hs & Hsnap & ->).
      exists s1, v1, m1. split_and!; try done. by eapply rtc_r. }
  destruct Hstep as [h h' lock r r' ws Hr
    |h h' lock lock' r ws i w w' Hi Hw|h lock r ws a]; [|by apply Hother..].
  clear Hother. pose proof (reader_step_heap _ _ _ _ _ Hr) as ->.
  assert (sys_step c (System h lock r ws) (System h lock r' ws)) as Hstep
    by (by constructor).
  unfold reader_invariant in *. simpl in *.
  destruct r as [keys' d'|store [|k keys'] acc d'|res]; simpl in Hr; unfold statement in Hr.
  - destruct Hinv as [-> ->]. unfold get_immutable_store in Hr. simpl in Hr.
    rewrite Hc in Hr. simpl in Hr. injection Hr as <-.
    split; [done|]. exists (System h lock (WfrCall keys d) ws), v, l, m, [].
    destruct Hholds as [Hl Hws].
    split_and!; try done. by apply rtc_once.
  - destruct Hinv as (-> & s1 & v1 & l1 & m1 & done & -> & Hs1 & Hs & Hc1 & Hl1 & Hh & -> & ->).
    injection Hr as <-. exists s1, v1, m1. rewrite (right_id_L [] (++)).
    split_and!; try done; [by eapply rtc_r|]. by exists l1.
  - destruct Hinv as (-> & s1 & v1 & l1 & m1 & done & -> & Hs1 & Hs & Hc1 & Hl1 & Hh & -> & ->).
    destruct Hh as [Hl Hws]. simpl in Hl.
    unfold dict_get, the_dict in Hr. revert Hr. run. rewrite Hl. simpl. intros [= <-].
    split; [done|]. exists s1, v1, l1, m1, (done ++ [k]).
    split_and!; try done; [by eapply rtc_r|by rewrite <- app_assoc|].
    by rewrite read_values_snoc.
  - done.
Qed.

(** *** The threads run the sequential code

    Left alone, a writer goes through its call in [length read_keys +
    length remove_keys + 6] steps and a reader in [length keys + 2], and
    they end where [atomic_write_read] and [atomic_waitfree_read] end. *)

Lemma writer_run_add n1 n2 c w h lock w1 h1 lock1 :
  writer_run n1 c w h lock = (w1, h1, lock1) →
  writer_run (n1 + n2) c w h lock = writer_run n2 c w1 h1 lock1.
Proof.
  revert w h lock. induction n1 as [|n1 IH]; intros w h lock; simpl.
  - by intros [= -> -> ->].
  - destruct (writer_step c w h lock) as [[[w' h'] lock']|] eqn:Hstep; [apply IH|].
    intros [= <- <- <-]. destruct n2; simpl; by rewrite ?Hstep.
Qed.

Lemma writer_run_reading c a v l m keys acc D A T lock :
  D !! l = Some m →
  writer_run (length keys) c (AwrReading a v (PyDict l) keys acc) (Heap D A T) lock
  = (AwrReading a v (PyDict l) []
       (foldl (λ acc k, <[k := default (default_value a) (m !! k)]> acc) acc keys),
     Heap D A T, lock).
Proof.
  intros Hl. revert acc. induction keys as [|k keys IH]; intros acc; simpl; [done|].
  unfold statement, dict_get, the_dict. run. rewrite Hl. simpl. apply IH.
Qed.

Lemma writer_run_remove c a v l m keys rv D A T lock :
  D !! l = Some m →
  writer_run (length keys) c (AwrRemove a v l keys rv) (Heap D A T) lock
  = (AwrRemove a v l [] rv, Heap (<[l := removed keys m]> D) A T, lock).
Proof.
  revert D m. induction keys as [|k keys IH]; intros D m Hl; simpl.
  - by rewrite insert_id.
  - unfold statement, dict_contains, dict_delitem, modify_dict. run. rewrite Hl.
    destruct (m !! k) as [x|] eqn:Hk.
    + unfold set_dicts.
      repeat first [rewrite Hl | rewrite bool_decide_eq_true_2 by eauto | progress simpl].
      rewrite (IH _ (delete k m)) by apply lookup_insert_eq.
      by rewrite insert_insert_eq.
    + rewrite bool_decide_eq_false_2 by (intros [? ?]; congruence). simpl.
      rewrite (IH _ m Hl). by rewrite delete_id.
Qed.

Lemma writer_run_atomic_write_read h c v l m a :
  atomic_dicts h !! c = Some (mkAtomicDict (v, PyDict l)) →
  dicts h !! l = Some m →
  ∃ res h',
    atomic_write_read c (write_dict a) (read_keys a) (remove_keys a) (default_value a) h
    = Return res h' ∧
    writer_run (length (read_keys a) + length (remove_keys a) + 6) c (AwrCall a) h false
    = (AwrDone (inl res), h', false).
Proof.
  intros Hc Hl. eexists _, _.
  split; [by apply (atomic_write_read_run h c v l m)|].
  destruct h as [D A T]. simpl in Hc, Hl.
  replace (length (read_keys a) + length (remove_keys a) + 6)%nat
    with (2 + (length (read_keys a) + (2 + (length (remove_keys a) + 2))))%nat by lia.
  rewrite (writer_run_add 2 _ c _ _ _
             (AwrReading a v (PyDict l) (read_keys a) ∅) (Heap D A T) true).
  2: { simpl. unfold statement, get_immutable_store. simpl. by rewrite Hc. }
  rewrite (writer_run_add (length (read_keys a)) _ c _ _ _ _ _ _
             (writer_run_reading c a v l m (read_keys a) ∅ D A T true Hl)).
  set (l' := fresh (dom D)).
  assert (D !! l' = None) as Hfresh by apply not_elem_of_dom, is_fresh.
  rewrite (writer_run_add 2 _ c _ _ _
             (AwrRemove a v l' (remove_keys a)
                (read_values m (read_keys a) (default_value a)))
             (Heap (<[l' := default ∅ (write_dict a) ∪ m]> D) A T) true).
  2: { simpl. unfold statement, dict_copy, the_dict, new_dict, dict_update,
         modify_dict, set_dicts. run. rewrite Hl. simpl. fold l'.
       unfold statement, dict_update, modify_dict, set_dicts. simpl.
       rewrite lookup_insert_eq. simpl. by rewrite insert_insert_eq. }
  rewrite (writer_run_add (length (remove_keys a)) _ c _ _ _ _ _ _
             (writer_run_remove c a v l' _ (remove_keys a) _ _ A T true
                (lookup_insert_eq _ _ _))).
  rewrite insert_insert_eq. simpl. unfold statement, set_immutable_store. simpl.
  by rewrite Hc.
Qed.

Lemma reader_run_reading c l m keys acc (d : V) D A T :
  D !! l = Some m →
  reader_run (length keys) c (WfrReading (PyDict l) keys acc d) (Heap D A T)
  = (WfrReading (PyDict l) []
       (foldl (λ acc k, <[k := default d (m !! k)]> acc) acc keys) d,
     Heap D A T).
Proof.
  intros Hl. revert acc. induction keys as [|k keys IH]; intros acc; simpl; [done|].
  unfold statement, dict_get, the_dict. run. rewrite Hl. simpl. apply IH.
Qed.

Lemma reader_run_add n1 n2 c r h r1 h1 :
  reader_run n1 c r h = (r1, h1) →
  reader_run (n1 + n2) c r h = reader_run n2 c r1 h1.
Proof.
  revert r h. induction n1 as [|n1 IH]; intros r h; simpl.
  - by intros [= -> ->].
  - destruct (reader_step c r h) as [[r' h']|] eqn:Hstep; [apply IH|].
    intros [= <- <-]. destruct n2; simpl; by rewrite ?Hstep.
Qed.

Lemma reader_run_atomic_waitfree_read h c v m keys (d : V) :
  snapshot c h v m →
  ∃ res,
    atomic_waitfree_read c keys d h = Return res h ∧
    reader_run (length keys + 2) c (WfrCall keys d) h = (WfrDone (inl res), h).
Proof.
  intros Hsnap. eexists. split; [by apply (atomic_waitfree_read_run h c v m)|].
  destruct Hsnap as (l & Hc & Hl). destruct h as [D A T]. simpl in Hc, Hl.
  replace (length keys + 2)%nat with (1 + (length keys + 1))%nat by lia.
  rewrite (reader_run_add 1 _ c _ _ (WfrReading (PyDict l) keys ∅ d) (Heap D A T)).
  2: { simpl. unfold statement, get_immutable_store. simpl. by rewrite Hc. }
  by rewrite (reader_run_add (length keys) _ c _ _ _ _
                (reader_run_reading c l m keys ∅ d D A T Hl)).
Qed.


(** C8. In every interleaving of an [atomic_waitfree_read] call with the
    steps of any number of [atomic_write_read] calls, the dict the reader
    returns is the comprehension over one published snapshot: the mapping
    [m] that was published, as version [v], in a state [s1] of the run.
    Every key of the result has its value in [m], whatever the writers did
    to those keys meanwhile.  The reader raises nothing, and until it has
    returned it always has a next step, whoever holds the lock. *)
Theorem atomic_waitfree_read_no_tearing c s s' keys (d : V) :
  well_formed c s →
  sys_reader s = WfrCall keys d →
  rtc (sys_step c) s s' →
  (∀ res, sys_reader s' = WfrDone (inl res) →
          ∃ s1 v m, rtc (sys_step c) s s1 ∧ rtc (sys_step c) s1 s' ∧
                    snapshot c (sys_heap s1) v m ∧
                    res = read_values m keys d) ∧
  (∀ e, sys_reader s' ≠ WfrDone (inr e)) ∧
  ((∃ res, sys_reader s' = WfrDone (inl res)) ∨
   ∃ r', reader_step c (sys_reader s') (sys_heap s') = Some (r', sys_heap s')).
Proof.
  intros Hwf Hcall Hrun.
  assert (well_formed c s' ∧ reader_invariant c s keys d s') as [Hwf' Hinv].
  { revert s' Hrun. apply rtc_ind_r.
    - split; [done|]. unfold reader_invariant. by rewrite Hcall.
    - intros s1 s2 Hrun Hstep [IHwf IHinv].
      split; [by eapply well_formed_step|by eapply reader_invariant_step]. }
  unfold reader_invariant in Hinv. split; [|split].
  - intros res Hres. by rewrite Hres in Hinv.
  - intros e He. by rewrite He in Hinv.
  - destruct Hwf' as ((v & l & m & Hc & _) & _).
    destruct s' as [h lock r ws]. simpl in *.
    destruct r as [keys' d'|store [|k keys'] acc d'|[res|e]]; simpl; unfold statement.
    + right. unfold get_immutable_store. rewrite Hc. simpl. eauto.
    + right. eauto.
    + right. destruct Hinv as (_ & _ & _ & l1 & m1 & _ & -> & _ & _ & _ & _ & [Hl _] & _).
      simpl in Hl. unfold dict_get, the_dict. run. rewrite Hl. simpl. eauto.
    + left. eauto.
    + done.
Qed.

(** * More of [AtomicDict] and [DictTransaction] *)

(** ** The operations that read, on a snapshot *)

Lemma getitem_run h c v m k :
  snapshot c h v m →
  __getitem__ c k h = match m !! k with
                      | Some x => Return x h
                      | None => Raise KeyError h
                      end.
Proof.
  intros (l & Hc & Hl). destruct h as [D A T]. simpl in *.
  unfold __getitem__, get_immutable_store. run. rewrite Hc. simpl. rewrite Hl.
  by destruct (m !! k).
Qed.

Lemma get_run h c v m k (d : V) :
  snapshot c h v m → get c k d h = Return (default d (m !! k)) h.
Proof.
  intros (l & Hc & Hl). destruct h as [D A T]. simpl in *.
  unfold get, get_immutable_store, dict_get. run. rewrite Hc. simpl. by rewrite Hl.
Qed.

Lemma contains_run h c v m k :
  snapshot c h v m → __contains__ c k h = Return (bool_decide (is_Some (m !! k))) h.
Proof.
  intros (l & Hc & Hl). destruct h as [D A T]. simpl in *.
  unfold __contains__, get_immutable_store, dict_contains. run. rewrite Hc. simpl.
  by rewrite Hl.
Qed.

Lemma len_run h c v m :
  snapshot c h v m → __len__ c h = Return (Z.of_nat (size m)) h.
Proof.
  intros (l & Hc & Hl). destruct h as [D A T]. simpl in *.
  unfold __len__, get_immutable_store. run. rewrite Hc. simpl. by rewrite Hl.
Qed.

Lemma ver_run h c v m : snapshot c h v m → ver c h = Return v h.
Proof.
  intros (l & Hc & Hl). destruct h as [D A T]. simpl in *.
  unfold ver, get_immutable_store. run. by rewrite Hc.
Qed.

(** A write through [atomic_write_read], on a snapshot. *)
Lemma write_run h c v m (w : option (gmap K V)) dk (none : V) :
  snapshot c h v m →
  (atomic_write_read c w [] dk none ≫= λ _, mret ()) h
  = Return () (published c (v + 1) (removed dk (default ∅ w ∪ m)) h).
Proof.
  intros (l & Hc & Hl). run. by rewrite (atomic_write_read_run h c v l m).
Qed.

(** X1. After [d[key] = item] the dict is one version further, [d[key]] and
    [d.get(key)] give [item], and every other key reads as it did before:
    its value, or [KeyError]. *)
Theorem setitem_then_getitem h c v m k (x none : V) :
  snapshot c h v m →
  ∃ h', __setitem__ c k x none h = Return () h' ∧
        ver c h' = Return (v + 1) h' ∧
        __getitem__ c k h' = Return x h' ∧
        (∀ d, get c k d h' = Return x h') ∧
        (∀ k', k' ≠ k →
               __getitem__ c k' h' = match m !! k' with
                                     | Some y => Return y h'
                                     | None => Raise KeyError h'
                                     end).
Proof.
  intros Hsnap. eexists. split; [by apply write_run|].
  assert (removed [] (default ∅ (Some {[ k := x ]}) ∪ m) = <[k := x]> m) as ->
    by (simpl; by rewrite insert_union_singleton_l).
  pose proof (snapshot_published c (v + 1) (<[k := x]> m) h) as Hsnap'.
  split; [by eapply ver_run|]. split; [|split].
  - rewrite (getitem_run _ _ _ _ k Hsnap'). by rewrite lookup_insert_eq.
  - intros d. rewrite (get_run _ _ _ _ k d Hsnap'). by rewrite lookup_insert_eq.
  - intros k' Hne. rewrite (getitem_run _ _ _ _ k' Hsnap').
    by rewrite lookup_insert_ne.
Qed.

(** X2. [del d[key]] returns also when [key] is absent (where [dict] would
    raise [KeyError]) and publishes the next version all the same; after
    it [d[key]] raises [KeyError], [key in d] is [False] and [d.get(key,
    default)] is [default].  When [key] was absent the mapping is the one
    found. *)
Theorem delitem_then_getitem h c v m k (none : V) :
  snapshot c h v m →
  ∃ h', __delitem__ c k none h = Return () h' ∧
        ver c h' = Return (v + 1) h' ∧
        __getitem__ c k h' = Raise KeyError h' ∧
        __contains__ c k h' = Return false h' ∧
        (∀ d, get c k d h' = Return d h') ∧
        (m !! k = None → snapshot c h' (v + 1) m).
Proof.
  intros Hsnap. eexists. split; [by apply write_run|].
  assert (removed [k] (default ∅ None ∪ m) = delete k m) as ->
    by (unfold removed; simpl; by rewrite (left_id_L ∅ (∪))).
  pose proof (snapshot_published c (v + 1) (delete k m) h) as Hsnap'.
  split; [by eapply ver_run|]. split; [|split; [|split]].
  - rewrite (getitem_run _ _ _ _ k Hsnap'). by rewrite lookup_delete_eq.
  - rewrite (contains_run _ _ _ _ k Hsnap'). rewrite lookup_delete_eq.
    by rewrite bool_decide_eq_false_2 by (by intros [? ?]).
  - intros d. rewrite (get_run _ _ _ _ k d Hsnap'). by rewrite lookup_delete_eq.
  - intros Hk. rewrite delete_id by done. apply snapshot_published.
Qed.

Lemma read_comprehension_unchanged store keys (d : V) acc h :
  unchanged h (read_comprehension store keys d acc h).
Proof.
  destruct h as [D A T]. destruct store as [|l].
  - rewrite read_comprehension_None. by destruct keys.
  - destruct (D !! l) as [m|] eqn:Hl.
    + by rewrite (read_comprehension_dict _ _ _ _ m).
    + rewrite read_comprehension_dangling by done. by destruct keys.
Qed.

(** X3. The operations that only read publish nothing: whether they return
    or raise, [get], [__getitem__], [__contains__], [__len__], [ver] and
    [atomic_waitfree_read] leave the whole heap as it was. *)
Theorem reads_leave_the_heap h c :
  (∀ k (d : V), unchanged h (get c k d h)) ∧
  (∀ k, unchanged h (__getitem__ c k h)) ∧
  (∀ k, unchanged h (__contains__ c k h)) ∧
  unchanged h (__len__ c h) ∧
  unchanged h (ver c h) ∧
  (∀ keys (d : V), unchanged h (atomic_waitfree_read c keys d h)).
Proof.
  destruct h as [D A T].
  split_and!; intros;
    unfold get, __getitem__, __contains__, __len__, ver, atomic_waitfree_read,
      get_immutable_store, dict_get, dict_contains, the_dict; run;
    destruct (A !! c) as [[[v [|l]]]|]; simpl; try done.
  - by destruct (D !! l).
  - destruct (D !! l) as [m|]; simpl; [|done]. by destruct (m !! k).
  - by destruct (D !! l).
  - by destruct (D !! l).
  - apply read_comprehension_unchanged.
  - apply read_comprehension_unchanged.
Qed.

(** X4. [clear] publishes an empty dict as the next version, whatever the
    store was: afterwards the length is 0 and every [get] gives its
    default; the dicts of the heap, the old store among them, are as they
    were. *)
Theorem clear_publishes_empty h c v store :
  atomic_dicts h !! c = Some (mkAtomicDict (v, store)) →
  ∃ h', clear c h = Return () h' ∧
        snapshot c h' (v + 1) ∅ ∧
        __len__ c h' = Return 0 h' ∧
        (∀ k (d : V), get c k d h' = Return d h') ∧
        (∀ l m, dicts h !! l = Some m → dicts h' !! l = Some m).
Proof.
  intros Hc. eexists. split; [by apply (clear_run h c v store)|].
  pose proof (snapshot_published c (v + 1) ∅ h) as Hsnap.
  split; [done|]. split; [|split].
  - by rewrite (len_run _ _ _ _ Hsnap).
  - intros k d. by rewrite (get_run _ _ _ _ k d Hsnap).
  - intros l m. apply published_dicts.
Qed.

(** X5. [copy] returns a new dict with the entries of the published one and
    publishes nothing; an assignment into the copy changes the copy alone. *)
Theorem copy_is_a_new_dict h c v m :
  snapshot c h v m →
  ∃ d h', copy c h = Return d h' ∧
          dicts h !! d = None ∧
          dicts h' !! d = Some m ∧
          snapshot c h' v m ∧
          ∀ k (x : V), ∃ h'', dict_setitem d k x h' = Return () h'' ∧
                              dicts h'' !! d = Some (<[k := x]> m) ∧
                              snapshot c h'' v m.
Proof.
  intros (l & Hc & Hl). destruct h as [D A T]. simpl in *.
  set (d := fresh (dom D)).
  assert (D !! d = None) as Hfresh by apply not_elem_of_dom, is_fresh.
  assert (d ≠ l) as Hne by congruence.
  exists d. eexists. split.
  { unfold copy, get_immutable_store, dict_copy, new_dict. run. rewrite Hc. simpl.
    by rewrite Hl. }
  unfold set_dicts. simpl. fold d. split; [done|].
  split; [by rewrite lookup_insert_eq|]. split.
  { exists l. simpl. split; [done|]. by rewrite lookup_insert_ne. }
  intros k x. eexists. unfold dict_setitem, modify_dict. simpl.
  rewrite lookup_insert_eq. split; [done|]. unfold set_dicts. simpl.
  split; [by rewrite lookup_insert_eq|].
  exists l. simpl. split; [done|]. by rewrite !lookup_insert_ne.
Qed.

(** X6. Two [update] calls publish, two versions on, the mapping that one
    [update] with the second argument laid over the first publishes one
    version on: later entries win, and the version counts the calls. *)
Theorem update_twice h c v m (e1 e2 : gmap K V) (none : V) :
  snapshot c h v m →
  ∃ h1 h2 h12,
    update c e1 none h = Return () h1 ∧
    update c e2 none h1 = Return () h2 ∧
    update c (e2 ∪ e1) none h = Return () h12 ∧
    snapshot c h2 (v + 2) (e2 ∪ e1 ∪ m) ∧
    snapshot c h12 (v + 1) (e2 ∪ e1 ∪ m).
Proof.
  intros Hsnap.
  pose proof (snapshot_published c (v + 1) (e1 ∪ m) h) as Hsnap1.
  eexists _, _, _. split; [by apply write_run|]. simpl.
  split; [by apply (write_run _ c (v + 1) (e1 ∪ m))|].
  split; [by apply write_run|]. simpl. split.
  - replace (v + 2) with (v + 1 + 1) by lia. rewrite <- (assoc_L (∪)).
    apply snapshot_published.
  - apply snapshot_published.
Qed.

(** X7. [AtomicDict(d)] is a new object at version 0 holding the entries of
    [d] in a dict of its own: a later assignment into [d] does not reach
    it.  [AtomicDict()] is at version 0 and empty. *)
Theorem AtomicDict_starts_at_version_0 h l m :
  dicts h !! l = Some m →
  (∃ c h', AtomicDict_call (Some (PyDict l)) h = Return c h' ∧
           atomic_dicts h !! c = None ∧
           snapshot c h' 0 m ∧
           ∀ k (x : V), ∃ h'', dict_setitem l k x h' = Return () h'' ∧
                               dicts h'' !! l = Some (<[k := x]> m) ∧
                               snapshot c h'' 0 m) ∧
  (∃ c h', AtomicDict_call None h = Return c h' ∧
           atomic_dicts h !! c = None ∧ snapshot c h' 0 ∅).
Proof.
  intros Hl. destruct h as [D A T]. simpl in *.
  set (d := fresh (dom D)). set (c := fresh (dom A)).
  assert (D !! d = None) as Hd by apply not_elem_of_dom, is_fresh.
  assert (A !! c = None) as Hc by apply not_elem_of_dom, is_fresh.
  assert (d ≠ l) as Hne by congruence.
  split.
  - exists c. eexists. split.
    { unfold AtomicDict_call, dict_call, new_dict, new_atomic_dict. run.
      by rewrite Hl. }
    unfold set_dicts, set_atomic_dicts. simpl. fold c d. split; [done|]. split.
    { exists d. simpl. by rewrite !lookup_insert_eq. }
    intros k x. eexists. unfold dict_setitem, modify_dict. simpl.
    rewrite lookup_insert_ne by done. rewrite Hl. split; [done|].
    unfold set_dicts. simpl. split; [by rewrite lookup_insert_eq|].
    exists d. simpl. rewrite lookup_insert_eq. split; [done|].
    rewrite lookup_insert_ne by done. by rewrite lookup_insert_eq.
  - exists c. eexists. split; [done|]. simpl. fold c d. split; [done|].
    exists d. simpl. by rewrite !lookup_insert_eq.
Qed.


(** ** Transactions against publications *)

(** What a returning call does to the rest of the heap: it keeps the dicts
    there were and the other [AtomicDict]s, and a transaction keeps its
    source and version, and its [data] attribute if it had one. *)
Lemma run_call_frame h c (call : @call K _ _ V) u h1 :
  run_call c call h = Return u h1 →
  (∀ l m, dicts h !! l = Some m → dicts h1 !! l = Some m) ∧
  (∀ c', c' ≠ c → atomic_dicts h1 !! c' = atomic_dicts h !! c') ∧
  (∀ t tx, transactions h !! t = Some tx →
           ∃ tx1, transactions h1 !! t = Some tx1 ∧
                  __source__ tx1 = __source__ tx ∧ __ver__ tx1 = __ver__ tx ∧
                  (is_Some (data tx) → is_Some (data tx1))).
Proof.
  destruct call as [w rk dk d|t0|]; simpl; run.
  - destruct (atomic_write_read c w rk dk d h) as [res h2| |] eqn:Hrun; [|done..].
    intros [= _ <-].
    apply atomic_write_read_return in Hrun as (v & l & m & Hc & _ & _ & ->).
    split_and!.
    + intros l0 m0. apply published_dicts.
    + intros c' Hne. unfold published. simpl. by rewrite lookup_insert_ne.
    + intros t tx Ht. exists tx. by split_and!.
  - destruct (commit_transaction c t0 h) as [b h2| |] eqn:Hrun; [|done..].
    intros [= _ <-].
    apply commit_transaction_return in Hrun
      as (v & store & tx0 & ns & Hc & Ht0 & Hd & Hs & Hv & _ & ->).
    unfold committed_heap. simpl. split_and!.
    + done.
    + intros c' Hne. by rewrite lookup_insert_ne.
    + intros t tx Ht. destruct (decide (t = t0)) as [->|Hne].
      * rewrite lookup_insert_eq. eexists. split; [done|]. simpl.
        assert (tx = tx0) as -> by congruence. by split_and!.
      * rewrite lookup_insert_ne by done. exists tx. by split_and!.
  - destruct (atomic_dicts h !! c) as [[[v store]]|] eqn:Hc.
    + rewrite (clear_run h c v store Hc). intros [= _ <-]. split_and!.
      * intros l0 m0. apply published_dicts.
      * intros c' Hne. unfold published. simpl. by rewrite lookup_insert_ne.
      * intros t tx Ht. exists tx. by split_and!.
    + destruct h as [D A T]. simpl in *. unfold clear, get_immutable_store. run.
      by rewrite Hc.
Qed.

(** X8. Optimistic conflict detection.  A transaction that would validate
    now is stale after any one call that publishes on its [AtomicDict], an
    [atomic_write_read] that writes nothing included: [commit_transaction]
    then raises [DictTransactionError] with the source, the transaction's
    version and the message naming both versions, and leaves the heap as
    that call left it. *)
Theorem stale_transaction_is_rejected h c t ns (call : @call K _ _ V) u h1 :
  validate_transaction t c h = Return true h →
  getattr data t h = Return ns h →
  run_call c call h = Return u h1 →
  ∃ v, ver c h = Return v h ∧
       ver c h1 = Return (v + 1) h1 ∧
       commit_transaction c t h1
       = Raise (DictTransactionError c v
                  ("Expected version: " +:+ pretty v +:+
                   " - Actual version: " +:+ pretty (v + 1))) h1.
Proof.
  intros (tx & v & store & Ht & Hs & Hc & Hv & _ & _)%validate_transaction_return
    Hdata Hcall.
  assert (is_Some (data tx)) as Hsome.
  { destruct h as [D A T]. simpl in *. revert Hdata.
    unfold getattr, the_transaction. run. rewrite Ht. by destruct (data tx). }
  destruct (run_call_frame _ _ _ _ _ Hcall) as (_ & _ & Htx).
  destruct (Htx t tx Ht) as (tx1 & Ht1 & Hs1 & Hv1 & Hd1).
  destruct (Hd1 Hsome) as [ns1 Hns1].
  apply run_call_return in Hcall as (v' & st & st' & Hc' & Hc1).
  assert (v' = v) as -> by congruence.
  exists v. split; [|split].
  - destruct h as [D A T]. simpl in *. unfold ver, get_immutable_store. run.
    by rewrite Hc.
  - destruct h1 as [D A T]. simpl in *. unfold ver, get_immutable_store. run.
    by rewrite Hc1.
  - rewrite (commit_transaction_run h1 c t (v + 1) st' tx1 ns1 c v)
      by (done || congruence).
    rewrite bool_decide_eq_false_2 by (intros Hne; by apply Hne).
    by rewrite bool_decide_eq_true_2 by lia.
Qed.

Lemma commit_cases h t :
  match commit t h with
  | Return _ h1 =>
      getattr __committed__ t h1 = Return true h1 ∧
      (getattr __committed__ t h = Return true h ∧ h1 = h ∨
       ∃ src h', getattr __committed__ t h = Return false h ∧
                 getattr __source__ t h = Return src h ∧
                 commit_transaction src t h = Return true h' ∧
                 atomic_dicts h1 = atomic_dicts h' ∧ dicts h1 = dicts h')
  | Raise e h1 => h1 = h
  | Wrong => True
  end.
Proof.
  destruct h as [D A T]. unfold commit, getattr, the_transaction. run.
  destruct (T !! t) as [[dt src v [[|]|]]|] eqn:Ht; simpl; try done.
  - rewrite Ht. simpl. auto.
  - rewrite Ht. simpl. destruct src as [src|]; simpl; [|done].
    destruct (commit_transaction src t (Heap D A T)) as [b h'|e h'|] eqn:Hrun;
      [| |done].
    + apply commit_transaction_return in Hrun as Hret.
      destruct Hret as (v0 & store & tx & ns & Hc & Ht' & Hd & Hs & Hv & -> & ->).
      simpl in Ht'. unfold set_committed, modify_transaction, committed_heap. simpl.
      rewrite lookup_insert_eq. simpl. rewrite lookup_insert_eq. simpl.
      split; [done|]. right. exists src. eexists. by split_and!.
    + by apply commit_transaction_raise in Hrun.
Qed.

(** X9. [commit] commits once: when it has returned, the flag
    [__committed__] is [True], and a further [commit] of the same
    transaction returns at once with the heap as it is, publishing
    nothing. *)
Theorem commit_twice h t u h1 :
  commit t h = Return u h1 →
  getattr __committed__ t h1 = Return true h1 ∧
  commit t h1 = Return () h1.
Proof.
  intros Hrun. pose proof (commit_cases h t) as Hcases. rewrite Hrun in Hcases.
  destruct Hcases as [Hflag _]. split; [done|].
  destruct h1 as [D A T]. revert Hflag. unfold commit, getattr, the_transaction. run.
  destruct (T !! t) as [[dt src v [[|]|]]|]; simpl; try done.
Qed.

(** X10. A [commit] that raises, with [DictTransactionError] or with
    anything else, has changed nothing: not the published pair, not the
    transaction, not its flag. *)
Theorem commit_raise_changes_nothing h t e h1 :
  commit t h = Raise e h1 → h1 = h.
Proof.
  intros Hrun. pose proof (commit_cases h t) as Hcases. by rewrite Hrun in Hcases.
Qed.

(** X11. [validate_transaction] returns only [True], exactly for the
    transactions whose source is this [AtomicDict] and whose version is
    its current one; so a transaction validates on one [AtomicDict] at
    most.  Returning or raising, it leaves the heap as it was. *)
Theorem validate_transaction_exactly h c t :
  (validate_transaction t c h = Return true h ↔
   ∃ tx v store, transactions h !! t = Some tx ∧
                 __source__ tx = Some c ∧ __ver__ tx = Some v ∧
                 atomic_dicts h !! c = Some (mkAtomicDict (v, store))) ∧
  (∀ b h', validate_transaction t c h = Return b h' → b = true ∧ h' = h) ∧
  (∀ e h', validate_transaction t c h = Raise e h' → h' = h) ∧
  (∀ c' b b' h' h'', validate_transaction t c h = Return b h' →
                     validate_transaction t c' h = Return b' h'' → c' = c).
Proof.
  split_and!.
  - split.
    + intros (tx & v & store & ? & ? & ? & ? & _)%validate_transaction_return.
      eauto 10.
    + intros (tx & v & store & Ht & Hs & Hv & Hc). destruct h as [D A T]. simpl in *.
      unfold validate_transaction, ver, getattr, the_transaction, get_immutable_store.
      run.
      by repeat first [rewrite Ht | rewrite Hs | rewrite Hv | rewrite Hc
                      | rewrite bool_decide_eq_false_2 by (intros Hne; by apply Hne)
                      | progress simpl].
  - intros b h' (tx & v & store & _ & _ & _ & _ & -> & ->)%validate_transaction_return.
    done.
  - intros e h'. destruct h as [D A T].
    unfold validate_transaction, ver, getattr, the_transaction, get_immutable_store.
    run. destruct (T !! t) as [[dt [src|] [tv|] cm]|] eqn:Ht; simpl; try done;
      try (by intros [= _ <-]).
    all: case_bool_decide; repeat first [rewrite Ht | progress simpl];
      try done; try (by intros [= _ <-]).
    all: destruct (A !! c) as [[[v store]]|];
      repeat first [rewrite Ht | progress simpl]; try done; try (by intros [= _ <-]).
    case_bool_decide; repeat first [rewrite Ht | progress simpl];
      try done; by intros [= _ <-].
  - intros c' b b' h' h''
      (tx & v & store & Ht & Hs & _)%validate_transaction_return
      (tx' & v' & store' & Ht' & Hs' & _)%validate_transaction_return.
    congruence.
Qed.

(** ** Copy on write *)

Lemma run_call_keeps h c (call : @call K _ _ V) :
  match run_call c call h with
  | Return _ h1 | Raise _ h1 =>
      (∀ l m, dicts h !! l = Some m → dicts h1 !! l = Some m) ∧
      (∀ c', c' ≠ c → atomic_dicts h1 !! c' = atomic_dicts h !! c')
  | Wrong => True
  end.
Proof.
  destruct (run_call c call h) as [u h1|e h1|] eqn:Hrun; [| |done].
  - destruct (run_call_frame _ _ _ _ _ Hrun) as (? & ? & _). by split.
  - apply run_call_raise in Hrun as ->. by split.
Qed.

(** X12. Copy on write.  Through any sequence of [atomic_write_read],
    [commit_transaction] and [clear] calls on one [AtomicDict], returning
    or raising, every dict that was in the heap keeps its entries (a store
    once published is never written again) and every other [AtomicDict]
    keeps its published pair. *)
Theorem published_stores_are_never_written h c (calls : list (@call K _ _ V)) h' :
  run_calls c calls h = Some h' →
  (∀ l m, dicts h !! l = Some m → dicts h' !! l = Some m) ∧
  (∀ c', c' ≠ c → atomic_dicts h' !! c' = atomic_dicts h !! c').
Proof.
  revert h. induction calls as [|call calls IH]; intros h; simpl.
  - by intros [= ->].
  - pose proof (run_call_keeps h c call) as Hkeep.
    destruct (run_call c call h) as [u h1|e h1|]; [| |done].
    all: intros Hrest; destruct Hkeep as [Hd Ha];
      destruct (IH h1 Hrest) as [Hd' Ha']; split;
      [intros l m Hl; by apply Hd', Hd | intros c' Hne; by rewrite Ha', Ha].
Qed.


(** ** A transaction with a dict of its own *)

(** X16. Isolation until commit.  For a transaction that holds a dict of
    its own, an assignment through the transaction leaves the published
    mapping as it is; [commit] then publishes the transaction's dict, with
    the assignment in it, as the next version, and takes the dict from
    the transaction.  The replaced store keeps its entries. *)
Theorem transaction_writes_show_at_commit h c t v l m tx lt mt k (x : V) :
  atomic_dicts h !! c = Some (mkAtomicDict (v, PyDict l)) →
  dicts h !! l = Some m →
  transactions h !! t = Some tx →
  data tx = Some (PyDict lt) → dicts h !! lt = Some mt → lt ≠ l →
  __source__ tx = Some c → __ver__ tx = Some v → __committed__ tx = Some false →
  ∃ h1 h2,
    UserDict_setitem t k x h = Return () h1 ∧
    snapshot c h1 v m ∧
    commit t h1 = Return () h2 ∧
    snapshot c h2 (v + 1) (<[k := x]> mt) ∧
    getattr data t h2 = Return PyNone h2 ∧
    getattr __committed__ t h2 = Return true h2 ∧
    dicts h2 !! l = Some m.
Proof.
  intros Hc Hl Ht Hd Hlt Hne Hs Hv Hflag. destruct h as [D A T]. simpl in *.
  eexists _, _. split; [by apply (UserDict_setitem_writes D A T t tx lt mt)|].
  split. { exists l. simpl. split; [done|]. by rewrite lookup_insert_ne. }
  split.
  { unfold commit, getattr, the_transaction. run.
    repeat first [rewrite Ht | rewrite Hflag | rewrite Hs | progress simpl].
    rewrite (commit_transaction_run _ c t v (PyDict l) tx (PyDict lt) c v) by done.
    rewrite !bool_decide_eq_false_2 by (intros Hn; by apply Hn).
    unfold committed_heap, set_committed, modify_transaction. simpl.
    by rewrite lookup_insert_eq. }
  unfold set_transactions. simpl. split_and!.
  - exists lt. simpl. by rewrite !lookup_insert_eq.
  - unfold getattr, the_transaction. run. by rewrite lookup_insert_eq.
  - unfold getattr, the_transaction. run. by rewrite lookup_insert_eq.
  - by rewrite lookup_insert_ne.
Qed.


(** ** The lock *)

(** A step of a writer inside the [with] block keeps it at work on the
    published pair, as long as the dict it builds is not the published
    one. *)
Lemma writer_progress_step c w h lock w' h' lock' :
  writer_step c w h lock = Some (w', h', lock') →
  in_with_block w = true →
  (∃ v l m, atomic_dicts h !! c = Some (mkAtomicDict (v, PyDict l)) ∧
            dicts h !! l = Some m ∧ local_store_of w ≠ Some l) →
  writer_progress c h w →
  writer_progress c h' w' ∧ (in_with_block w' = true → lock' = lock).
Proof.
  intros Hstep Hin (v0 & l0 & m0 & Hc & Hl & Hloc) Hprog.
  destruct h as [D A T]. simpl in Hc, Hl.
  destruct w as [a|a|a v store [|k keys] acc|a v l rv|a v l [|k keys] rv|res|res];
    simpl in Hstep; unfold statement in Hstep.
  - done.
  - unfold get_immutable_store in Hstep. simpl in Hstep. rewrite Hc in Hstep.
    simpl in Hstep. injection Hstep as <- <- <-. split; [|done].
    simpl. exists l0, m0, []. by split_and!.
  - destruct Hprog as (l & m & done & -> & Hc1 & Hl1 & Hkeys & ->). simpl in *.
    revert Hstep. unfold dict_copy, the_dict, new_dict. run. rewrite Hl1. simpl.
    intros [= <- <- <-]. split; [|done]. simpl.
    assert (fresh (dom D) ≠ l) as Hne.
    { intros Heq. apply (is_fresh (dom D)). rewrite Heq. by apply elem_of_dom. }
    exists l, m. rewrite lookup_insert_ne by done. rewrite lookup_insert_eq.
    split_and!; try done. by rewrite Hkeys, (right_id_L [] (++)).
  - destruct Hprog as (l & m & done & -> & Hc1 & Hl1 & Hkeys & ->). simpl in *.
    revert Hstep. unfold dict_get, the_dict. run. rewrite Hl1. simpl.
    intros [= <- <- <-]. split; [|done]. simpl.
    exists l, m, (done ++ [k]). split_and!; try done.
    + by rewrite Hkeys, <- app_assoc.
    + by rewrite read_values_snoc.
  - destruct Hprog as (l1 & m & Hc1 & Hl1 & Hl' & ->). simpl in *.
    assert (l1 = l0) as -> by congruence. assert (l ≠ l0) as Hne by congruence.
    revert Hstep. unfold dict_update, modify_dict. simpl. rewrite Hl'. simpl.
    intros [= <- <- <-]. split; [|done]. simpl.
    exists l0, m, (default ∅ (write_dict a) ∪ m).
    rewrite lookup_insert_ne by done. rewrite lookup_insert_eq. by split_and!.
  - revert Hstep. unfold set_immutable_store. simpl. rewrite Hc. simpl.
    intros [= <- <- <-]. by split.
  - destruct Hprog as (l1 & m & m1 & Hc1 & Hl1 & Hl' & Hrem & ->). simpl in *.
    assert (l1 = l0) as -> by congruence. assert (l ≠ l0) as Hne by congruence.
    revert Hstep. unfold dict_contains, dict_delitem, the_dict, modify_dict. run.
    rewrite Hl'. simpl. destruct (m1 !! k) as [x|] eqn:Hk.
    + repeat first [rewrite Hl' | rewrite bool_decide_eq_true_2 by eauto
                   | progress simpl].
      intros [= <- <- <-]. split; [|done]. simpl.
      exists l0, m, (delete k m1).
      rewrite lookup_insert_ne by done. rewrite lookup_insert_eq. by split_and!.
    + rewrite bool_decide_eq_false_2 by (intros [? ?]; congruence). simpl.
      intros [= <- <- <-]. split; [|done]. simpl.
      exists l0, m, m1. split_and!; try done.
      rewrite <- Hrem. unfold removed. simpl. by rewrite delete_id.
  - injection Hstep as <- <- <-. by split.
  - done.
Qed.

Lemma writer_progress_outside c h w :
  in_with_block w = false → writer_progress c h w.
Proof. by destruct w. Qed.

(** Outside the [with] block the only step is taking the free lock. *)
Lemma writer_step_outside c w h lock w' h' lock' :
  writer_step c w h lock = Some (w', h', lock') →
  in_with_block w = false →
  lock = false ∧ lock' = true ∧ h' = h ∧ ∃ a, w = AwrCall a ∧ w' = AwrLocked a.
Proof.
  destruct w as [a| | | | | |]; try done. simpl. destruct lock; [done|].
  intros [= <- <- <-] _. eauto 10.
Qed.

Lemma lock_invariant_step c s s' :
  well_formed c s → lock_invariant c s → sys_step c s s' → lock_invariant c s'.
Proof.
  intros ((v & l & m & Hc & Hl & Hloc) & _) (L1 & L2 & L3) Hstep.
  destruct Hstep as [h h' lock r r' ws Hr
    |h h' lock lock' r ws i w w' Hi Hw|h lock r ws a]; simpl in *.
  - apply reader_step_heap in Hr as ->. by split_and!.
  - assert (∀ j w2, <[i := w']> ws !! j = Some w2 → in_with_block w2 = true →
                    j ≠ i → in_with_block w = true → False) as Halone.
    { intros j w2 Hj Hin2 Hne Hin.
      destruct (writers_insert _ _ _ _ _ _ Hi Hj) as [[-> _]|[_ Hj']]; [done|].
      apply Hne. by apply (L1 j i w2 w). }
    destruct (in_with_block w) eqn:Hin.
    + destruct (writer_progress_step c w h lock w' h' lock' Hw Hin) as [Hprog Hlock].
      { exists v, l, m. split_and!; try done. by apply (Hloc i w). }
      { by apply (L3 i w). }
      split_and!.
      * intros j1 j2 w1 w2 Hj1 Hj2 Hin1 Hin2.
        destruct (decide (j1 = i)) as [->|Hne1], (decide (j2 = i)) as [->|Hne2];
          try done; exfalso; eauto.
      * intros j w2 Hj Hin2. destruct (decide (j = i)) as [->|Hne];
          [|exfalso; eauto].
        destruct (writers_insert _ _ _ _ _ _ Hi Hj) as [[_ ->]|[? _]]; [|done].
        rewrite (Hlock Hin2). by apply (L2 i w).
      * intros j w2 Hj.
        destruct (writers_insert _ _ _ _ _ _ Hi Hj) as [[_ ->]|[Hne Hj']]; [done|].
        apply writer_progress_outside. destruct (in_with_block w2) eqn:Hin2; [|done].
        exfalso. apply Hne. by apply (L1 j i w2 w).
    + destruct (writer_step_outside c w h lock w' h' lock' Hw Hin)
        as (-> & -> & -> & a & -> & ->).
      assert (∀ j w2, ws !! j = Some w2 → in_with_block w2 = false) as Hfree.
      { intros j w2 Hj. destruct (in_with_block w2) eqn:Hin2; [|done].
        by rewrite (L2 j w2 Hj Hin2) in *. }
      assert (∀ j w2, <[i := AwrLocked a]> ws !! j = Some w2 →
                      in_with_block w2 = true → j = i) as Honly.
      { intros j w2 Hj Hin2.
        destruct (writers_insert _ _ _ _ _ _ Hi Hj) as [[-> _]|[_ Hj']]; [done|].
        by rewrite (Hfree j w2 Hj') in Hin2. }
      split_and!.
      * intros j1 j2 w1 w2 Hj1 Hj2 Hin1 Hin2.
        rewrite (Honly j1 w1 Hj1 Hin1). by rewrite (Honly j2 w2 Hj2 Hin2).
      * done.
      * intros j w2 Hj.
        destruct (writers_insert _ _ _ _ _ _ Hi Hj) as [[_ ->]|[_ Hj']]; [done|].
        by apply (L3 j w2).
  - split_and!.
    + intros j1 j2 w1 w2 [Hj1|[-> _]]%writers_call [Hj2|[-> _]]%writers_call;
        try done. by eapply L1.
    + intros j w2 [Hj|[-> _]]%writers_call; [by eapply L2|done].
    + intros j w2 [Hj|[-> _]]%writers_call; [by eapply L3|done].
Qed.

Lemma invariants_run c s s' :
  well_formed c s → lock_invariant c s → rtc (sys_step c) s s' →
  well_formed c s' ∧ lock_invariant c s'.
Proof.
  intros Hwf Hlock. revert s'. apply rtc_ind_r; [done|].
  intros s1 s2 _ Hstep [IHwf IHlock].
  split; [by eapply well_formed_step|by eapply lock_invariant_step].
Qed.

(** *** Runs of one writer, as runs of the system *)

Lemma system_after_rtc c n i s : rtc (sys_step c) s (system_after n c i s).
Proof.
  unfold system_after. destruct s as [h lock r ws]. simpl.
  destruct (ws !! i) as [w|] eqn:Hi; [|done].
  revert w h lock ws Hi. induction n as [|n IH]; intros w h lock ws Hi; simpl.
  - by rewrite list_insert_id.
  - destruct (writer_step c w h lock) as [[[w1 h1] lock1]|] eqn:Hstep.
    + eapply rtc_l; [by eapply (step_writer c h h1 lock lock1 r ws i w w1)|].
      assert (<[i := w1]> ws !! i = Some w1) as Hi1
        by (apply list_lookup_insert_eq; by eapply lookup_lt_Some).
      pose proof (IH w1 h1 lock1 (<[i := w1]> ws) Hi1) as Hrest.
      destruct (writer_run n c w1 h1 lock1) as [[w' h'] lock'].
      by rewrite list_insert_insert_eq in Hrest.
    + by rewrite list_insert_id.
Qed.

Lemma system_after_step c i s :
  can_step c i s = true → sys_step c s (system_after 1 c i s).
Proof.
  unfold can_step, system_after. destruct s as [h lock r ws]. simpl.
  destruct (ws !! i) as [w|] eqn:Hi; [|done].
  destruct (writer_step c w h lock) as [[[w1 h1] lock1]|] eqn:Hstep.
  - intros _. by eapply step_writer.
  - intros Hcan. apply bool_decide_eq_true in Hcan as [? ?]. done.
Qed.


(** X13. Mutual exclusion.  In every state of a run, one writer at most is
    inside the [with] block of [atomic_write_read], and when the lock is
    free none is. *)
Theorem one_writer_in_the_with_block c s s' :
  well_formed c s → lock_invariant c s → rtc (sys_step c) s s' →
  (∀ i j w1 w2, sys_writers s' !! i = Some w1 → sys_writers s' !! j = Some w2 →
                in_with_block w1 = true → in_with_block w2 = true → i = j) ∧
  (sys_lock s' = false →
   ∀ i w, sys_writers s' !! i = Some w → in_with_block w = false).
Proof.
  intros Hwf Hlock Hrun.
  destruct (invariants_run c s s' Hwf Hlock Hrun) as [_ (L1 & L2 & _)].
  split; [done|]. intros Hfree i w Hi.
  destruct (in_with_block w) eqn:Hin; [|done].
  by rewrite (L2 i w Hi Hin) in Hfree.
Qed.

(** Only the last statement of the [with] block assigns the published pair. *)
Lemma writer_step_keeps_pair c w h lock w' h' lock' :
  writer_step c w h lock = Some (w', h', lock') →
  (∀ a v l rv, w ≠ AwrRemove a v l [] rv) →
  atomic_dicts h' = atomic_dicts h.
Proof.
  intros Hw Hnot. destruct h as [D A T].
  destruct w as [a|a|a v store [|k keys] acc|a v l rv|a v l [|k keys] rv|res|res];
    simpl in Hw; unfold statement in Hw.
  - destruct lock; [done|]. by injection Hw as <- <- <-.
  - unfold get_immutable_store in Hw. simpl in Hw.
    destruct (A !! c) as [[[v store]]|]; [|done]. by injection Hw as <- <- <-.
  - revert Hw. unfold dict_copy, the_dict, new_dict. run.
    destruct store as [|l]; simpl; [by intros [= <- <- <-]|].
    destruct (D !! l); [|done]. by intros [= <- <- <-].
  - revert Hw. unfold dict_get, the_dict. run.
    destruct store as [|l]; simpl; [by intros [= <- <- <-]|].
    destruct (D !! l); [|done]. by intros [= <- <- <-].
  - revert Hw. unfold dict_update, modify_dict. simpl.
    destruct (D !! l); [|done]. by intros [= <- <- <-].
  - by destruct (Hnot a v l rv).
  - revert Hw. unfold dict_contains, dict_delitem, the_dict, modify_dict. run.
    destruct (D !! l) as [m1|] eqn:Hl; [|done]. simpl.
    case_bool_decide as Hk; simpl.
    + repeat first [rewrite Hl | rewrite bool_decide_eq_true_2 by done | progress simpl].
      by intros [= <- <- <-].
    + by intros [= <- <- <-].
  - by injection Hw as <- <- <-.
  - done.
Qed.

(** X14. Linearization.  In a run of concurrent [atomic_write_read] calls,
    a step either leaves the published pair as it is, or is the last
    statement of one call, and then that whole call took effect at once:
    the new mapping is the replaced one with the call's [write_dict] written
    over it and its [remove_keys] removed, the version is one more, and the
    call returns the values of the replaced mapping.  No update is lost. *)
Theorem publication_is_one_whole_call c s0 s s' :
  well_formed c s0 → lock_invariant c s0 →
  rtc (sys_step c) s0 s → sys_step c s s' →
  atomic_dicts (sys_heap s') !! c = atomic_dicts (sys_heap s) !! c ∨
  ∃ i a v m l rv,
    sys_writers s !! i = Some (AwrRemove a v l [] rv) ∧
    sys_writers s' !! i = Some (AwrRelease (inl rv)) ∧
    rv = read_values m (read_keys a) (default_value a) ∧
    snapshot c (sys_heap s) v m ∧
    snapshot c (sys_heap s')
      (v + 1) (removed (remove_keys a) (default ∅ (write_dict a) ∪ m)).
Proof.
  intros Hwf0 Hlock0 Hrun Hstep.
  destruct (invariants_run c s0 s Hwf0 Hlock0 Hrun) as [Hwf (_ & _ & L3)].
  destruct Hstep as [h h' lock r r' ws Hr
    |h h' lock lock' r ws i w w' Hi Hw|h lock r ws a]; simpl in *.
  - apply reader_step_heap in Hr as ->. by left.
  - pose proof (L3 i w Hi) as Hprog.
    destruct w as [a|a|a v store [|k keys] acc|a v l rv|a v l [|k keys] rv|res|res].
    6: { (* the linearization point *)
      right. destruct Hprog as (l1 & m & m1 & Hc1 & Hl1 & Hl' & Hrem & Hrv).
      destruct h as [D A T]. simpl in *.
      revert Hw. simpl. unfold statement, set_immutable_store. simpl.
      rewrite Hc1. simpl.
      intros [= <- <- <-].
      exists i, a, v, m, l, rv. split_and!; try done.
      - apply list_lookup_insert_eq. by eapply lookup_lt_Some.
      - by exists l1.
      - exists l. simpl. rewrite lookup_insert_eq. split; [done|].
        rewrite Hl'. by rewrite <- Hrem. }
    all: left; by rewrite (writer_step_keeps_pair _ _ _ _ _ _ _ Hw).
  - by left.
Qed.

(** X15. No writer is stuck inside the [with] block: in every state of a
    run, a writer that is inside it has a next step, whatever the other
    threads did. *)
Theorem lock_holder_has_a_next_step c s s' i w :
  well_formed c s → lock_invariant c s → rtc (sys_step c) s s' →
  sys_writers s' !! i = Some w → in_with_block w = true →
  ∃ w' h' lock', writer_step c w (sys_heap s') (sys_lock s') = Some (w', h', lock').
Proof.
  intros Hwf Hlock Hrun Hi Hin.
  destruct (invariants_run c s s' Hwf Hlock Hrun)
    as [((v0 & l0 & m0 & Hc & Hl0 & _) & _) (_ & _ & L3)].
  pose proof (L3 i w Hi) as Hprog.
  destruct s' as [[D A T] lock r ws]. simpl in *.
  destruct w as [a|a|a v store [|k keys] acc|a v l rv|a v l [|k keys] rv|res|res];
    simpl in *; try done; unfold statement.
  - unfold get_immutable_store. simpl. rewrite Hc. simpl. eauto.
  - destruct Hprog as (l & m & done & -> & _ & Hl & _).
    unfold dict_copy, the_dict, new_dict. run. rewrite Hl. simpl. eauto.
  - destruct Hprog as (l & m & done & -> & _ & Hl & _).
    unfold dict_get, the_dict. run. rewrite Hl. simpl. eauto.
  - destruct Hprog as (l1 & m & _ & _ & Hl & _).
    unfold dict_update, modify_dict. simpl. rewrite Hl. simpl. eauto.
  - unfold set_immutable_store. simpl. rewrite Hc. simpl. eauto.
  - destruct Hprog as (l1 & m & m1 & _ & _ & Hl & _).
    unfold dict_contains, dict_delitem, the_dict, modify_dict. run. rewrite Hl. simpl.
    case_bool_decide as Hk; simpl; [|eauto].
    repeat first [rewrite Hl | rewrite bool_decide_eq_true_2 by done | progress simpl].
    eauto.
  - eauto.
Qed.


End properties.

(** * The properties on concrete heaps *)

(** From [{a: 1, b: 2}], [atomic_write_read(write_dict={a: 3},
    read_keys=[a, b])] returns [{a: 1, b: 2}], and [atomic_waitfree_read([a,
    b])] then returns [{a: 3, b: 2}]. *)
Lemma atomic_write_read_reads_before_ab :
  atomic_write_read 1%positive (Some {[ "a" := 3 ]}) ["a"; "b"] [] 0 heap_ab
  = Return {[ "a" := 1; "b" := 2 ]} heap_ab_written ∧
  atomic_waitfree_read 1%positive ["a"; "b"] 0 heap_ab_written
  = Return {[ "a" := 3; "b" := 2 ]} heap_ab_written.
Proof.
  destruct (atomic_write_read_reads_before heap_ab 1%positive 0 1%positive
              {[ "a" := 1; "b" := 2 ]} (Some {[ "a" := 3 ]}) ["a"; "b"] [] 0
              eq_refl eq_refl) as (Hwrite & _ & Hread).
  vm_compute in Hwrite, Hread. split; [exact Hwrite | exact Hread].
Defined.

(** Writing [{a: 3, c: 9}] and removing [c] and [z] from [{a: 1, b: 2}]
    publishes [{a: 3, b: 2}] as version 1. *)
Lemma atomic_write_read_publishes_ab :
  ∃ res h' m',
    atomic_write_read 1%positive (Some {[ "a" := 3; "c" := 9 ]}) [] ["c"; "z"] 0 heap_ab
    = Return res h' ∧
    snapshot 1%positive h' 1 m' ∧
    m' !! "a" = Some 3 ∧ m' !! "b" = Some 2 ∧ m' !! "c" = None ∧ m' !! "z" = None.
Proof.
  destruct (atomic_write_read_publishes heap_ab 1%positive 0 1%positive
              {[ "a" := 1; "b" := 2 ]} (Some {[ "a" := 3; "c" := 9 ]}) []
              ["c"; "z"] 0 eq_refl eq_refl)
    as (res & h' & m' & Hrun & Hsnap & _ & Hlook & _).
  exists res, h', m'. split; [exact Hrun|]. split; [exact Hsnap|].
  rewrite !Hlook. repeat split; reflexivity.
Defined.

(** [pop(a)] on [{a: 1, b: 2}] returns 1 and publishes [{b: 2}]. *)
Lemma pop_removes_and_returns_ab :
  ∃ h', pop 1%positive "a" 0 heap_ab = Return 1 h' ∧
        snapshot 1%positive h' 1 {[ "b" := 2 ]}.
Proof.
  destruct (pop_removes_and_returns heap_ab 1%positive 0 1%positive
              {[ "a" := 1; "b" := 2 ]} "a" 0 eq_refl eq_refl)
    as (h' & Hrun & Hsnap & _).
  exists h'. split; [exact Hrun | exact Hsnap].
Defined.

(** Transaction 2 was begun at version 7 and the dict is at version 0. *)
Lemma commit_transaction_rejects_stale :
  ∃ msg, commit_transaction 1%positive 2%positive heap_tx
         = Raise (DictTransactionError 1%positive 7 msg) heap_tx.
Proof.
  refine (proj1 (commit_transaction_rejects heap_tx 1%positive 2%positive 0
                   (PyDict 1%positive) _ (PyDict 2%positive) 1%positive 7
                   eq_refl eq_refl eq_refl eq_refl eq_refl (or_intror _))).
  discriminate.
Defined.

(** [commit_transaction] returned [True] on a transaction that validates,
    and the transaction's [__committed__] is still [False]. *)
Lemma commit_transaction_leaves_flag :
  validate_transaction 1%positive 1%positive heap_tx = Return true heap_tx ∧
  ∃ h', commit_transaction 1%positive 1%positive heap_tx = Return true h' ∧
        getattr __committed__ 1%positive h' = Return false h'.
Proof.
  split; [vm_compute; reflexivity|].
  eexists. split; vm_compute; reflexivity.
Qed.

(** Transaction 1 commits: directly, with the flag left [False], and
    through [commit], with the flag [True]. *)
Lemma commit_transaction_publishes_tx :
  ∃ h1 h2,
    commit_transaction 1%positive 1%positive heap_tx = Return true h1 ∧
    get_immutable_store 1%positive h1 = Return (1, PyDict 2%positive) h1 ∧
    getattr __committed__ 1%positive h1 = Return false h1 ∧
    commit 1%positive heap_tx = Return () h2 ∧
    getattr __committed__ 1%positive h2 = Return true h2.
Proof.
  assert (validate_transaction 1%positive 1%positive heap_tx = Return true heap_tx)
    as Hval by (vm_compute; reflexivity).
  destruct (commit_transaction_publishes heap_tx 1%positive 1%positive 0
              (PyDict 1%positive) _ (PyDict 2%positive) eq_refl eq_refl eq_refl Hval)
    as (Hrun & Hstore & Hflag & Hcommit).
  destruct (Hcommit eq_refl) as (h2 & Hrun2 & Hflag2 & _).
  eexists _, h2. split; [exact Hrun|]. split; [exact Hstore|].
  split; [exact (Hflag false eq_refl)|]. split; [exact Hrun2 | exact Hflag2].
Defined.

(** After transaction 1 is committed, [transaction["a"] = 9] raises. *)
Lemma commit_transaction_drops_data_tx :
  ∃ h', commit_transaction 1%positive 1%positive heap_tx = Return true h' ∧
        getattr data 1%positive h' = Return PyNone h' ∧
        UserDict_setitem 1%positive "a" 9 h' = Raise TypeError h'.
Proof.
  assert (commit_transaction 1%positive 1%positive heap_tx
          = Return true
              (committed_heap 1%positive 1%positive 1 (PyDict 2%positive)
                 (mkDictTransaction (Some (PyDict 2%positive)) (Some 1%positive)
                    (Some 0) (Some false)) heap_tx)) as Hrun
    by (vm_compute; reflexivity).
  destruct (commit_transaction_drops_data _ _ _ _ _ Hrun) as (Hdata & _ & Hset & _).
  eexists. split; [exact Hrun|]. split; [exact Hdata | exact (Hset "a" 9)].
Defined.

(** [AtomicDict({a: 1, b: 2}).begin_transaction()] raises. *)
Lemma begin_transaction_raises_ab :
  ∃ h', begin_transaction 1%positive heap_ab = Raise AttributeError h' ∧
        atomic_dicts h' = atomic_dicts heap_ab.
Proof.
  destruct (begin_transaction_raises heap_ab 1%positive _ eq_refl)
    as ((h' & Hrun & Heq & _) & _).
  exists h'. split; [exact Hrun | exact Heq].
Defined.

(** [run_transaction] with a function that would return 0 raises. *)
Lemma run_transaction_raises_ab :
  ∃ h', run_transaction 1 1%positive (λ _, mret 0) heap_ab
        = Some (Raise AttributeError h') ∧
        atomic_dicts h' = atomic_dicts heap_ab.
Proof.
  exact (run_transaction_raises 0 heap_ab 1%positive _ (λ _, mret 0) eq_refl).
Defined.

(** A commit, a stale commit that raises, a write and a clear publish the
    versions 1, 2 and 3. *)
Lemma published_versions_consecutive_tx :
  published_versions 1%positive
    [CallCommit 1%positive; CallCommit 2%positive;
     CallWriteRead (Some {[ "a" := 3 ]}) ["a"] ["b"] 0; CallClear] heap_tx
  = [1; 2; 3].
Proof.
  destruct (published_versions_consecutive heap_tx 1%positive (PyDict 1%positive)
              [CallCommit 1%positive; CallCommit 2%positive;
               CallWriteRead (Some {[ "a" := 3 ]}) ["a"] ["b"] 0; CallClear]
              eq_refl) as (Heq & _).
  vm_compute in Heq. exact Heq.
Defined.

Lemma well_formed_system_ab : well_formed 1%positive system_ab.
Proof.
  split; [|split].
  - exists 0, 1%positive, {[ "a" := 1; "b" := 2 ]}. split; [reflexivity|].
    split; [reflexivity|]. intros [|[|i]] w [= <-]. discriminate.
  - intros [|[|i]] w l [= <-]. discriminate.
  - intros [|[|i]] j w1 w2 l [= <-]. discriminate.
Defined.

(** The reader reads the published pair and the value of [a]; the writer
    then runs its whole call and publishes [{a: 3, b: 4}]; the reader reads
    [b] and returns [{a: 1, b: 2}], the values of version 0. *)
Lemma atomic_waitfree_read_no_tearing_ab :
  ∃ s', rtc (sys_step 1%positive) system_ab s' ∧
        sys_reader s' = WfrDone (inl {[ "a" := 1; "b" := 2 ]}) ∧
        snapshot 1%positive (sys_heap s') 1 {[ "a" := 3; "b" := 4 ]} ∧
        ∃ s1 v m, rtc (sys_step 1%positive) system_ab s1 ∧
                  rtc (sys_step 1%positive) s1 s' ∧
                  snapshot 1%positive (sys_heap s1) v m ∧
                  {[ "a" := 1; "b" := 2 ]} = read_values m ["a"; "b"] 0.
Proof.
  assert (∃ s', rtc (sys_step 1%positive) system_ab s' ∧
                sys_reader s' = WfrDone (inl {[ "a" := 1; "b" := 2 ]}) ∧
                snapshot 1%positive (sys_heap s') 1 {[ "a" := 3; "b" := 4 ]})
    as (s' & Hrun & Hres & Hsnap).
  { eexists. split.
    - unfold system_ab.
      do 2 (eapply rtc_l; [apply step_reader; vm_compute; reflexivity|]).
      do 6 (eapply rtc_l;
            [eapply (step_writer _ _ _ _ _ _ _ 0%nat);
             [reflexivity | vm_compute; reflexivity]|]).
      do 2 (eapply rtc_l; [apply step_reader; vm_compute; reflexivity|]).
      apply rtc_refl.
    - split; [vm_compute; reflexivity|].
      exists 2%positive. split; vm_compute; reflexivity. }
  exists s'. split; [exact Hrun|]. split; [exact Hres|]. split; [exact Hsnap|].
  destruct (atomic_waitfree_read_no_tearing 1%positive system_ab s' ["a"; "b"] 0
              well_formed_system_ab eq_refl Hrun) as (Hsafe & _).
  exact (Hsafe _ Hres).
Defined.

(** * The further properties on concrete heaps *)

Lemma snapshot_heap_ab : snapshot 1%positive heap_ab 0 {[ "a" := 1; "b" := 2 ]}.
Proof. exists 1%positive. split; reflexivity. Defined.

(** [d["a"] = 7] on [{a: 1, b: 2}]. *)
Lemma setitem_then_getitem_ab :
  ∃ h', __setitem__ 1%positive "a" 7 0 heap_ab = Return () h' ∧
        ver 1%positive h' = Return 1 h' ∧
        __getitem__ 1%positive "a" h' = Return 7 h' ∧
        __getitem__ 1%positive "b" h' = Return 2 h' ∧
        __getitem__ 1%positive "z" h' = Raise KeyError h'.
Proof.
  destruct (setitem_then_getitem heap_ab 1%positive 0 _ "a" 7 0 snapshot_heap_ab)
    as (h' & Hset & Hver & Hget & _ & Hothers).
  exists h'. split; [exact Hset|]. split; [exact Hver|]. split; [exact Hget|].
  split; [exact (Hothers "b" ltac:(discriminate))
         |exact (Hothers "z" ltac:(discriminate))].
Defined.

(** [del d["z"]] on [{a: 1, b: 2}]: no [KeyError], and version 1. *)
Lemma delitem_then_getitem_ab :
  ∃ h', __delitem__ 1%positive "z" 0 heap_ab = Return () h' ∧
        ver 1%positive h' = Return 1 h' ∧
        __getitem__ 1%positive "z" h' = Raise KeyError h' ∧
        snapshot 1%positive h' 1 {[ "a" := 1; "b" := 2 ]}.
Proof.
  destruct (delitem_then_getitem heap_ab 1%positive 0 _ "z" 0 snapshot_heap_ab)
    as (h' & Hdel & Hver & Hget & _ & _ & Hsame).
  exists h'. split; [exact Hdel|]. split; [exact Hver|]. split; [exact Hget|].
  exact (Hsame eq_refl).
Defined.

Lemma clear_publishes_empty_ab :
  ∃ h', clear 1%positive heap_ab = Return () h' ∧
        snapshot 1%positive h' 1 ∅ ∧
        __len__ 1%positive h' = Return 0 h' ∧
        dicts h' !! 1%positive = Some {[ "a" := 1; "b" := 2 ]}.
Proof.
  destruct (clear_publishes_empty heap_ab 1%positive 0 (PyDict 1%positive) eq_refl)
    as (h' & Hclear & Hsnap & Hlen & _ & Hkeep).
  exists h'. split; [exact Hclear|]. split; [exact Hsnap|]. split; [exact Hlen|].
  exact (Hkeep 1%positive _ eq_refl).
Defined.

Lemma copy_is_a_new_dict_ab :
  ∃ d h' h'', copy 1%positive heap_ab = Return d h' ∧
              dict_setitem d "a" 9 h' = Return () h'' ∧
              dicts h'' !! d = Some {[ "a" := 9; "b" := 2 ]} ∧
              snapshot 1%positive h'' 0 {[ "a" := 1; "b" := 2 ]}.
Proof.
  destruct (copy_is_a_new_dict heap_ab 1%positive 0 _ snapshot_heap_ab)
    as (d & h' & Hcopy & _ & _ & _ & Hset).
  destruct (Hset "a" 9) as (h'' & Hrun & Hd & Hsnap).
  exists d, h', h''. split; [exact Hcopy|]. split; [exact Hrun|].
  split; [exact Hd | exact Hsnap].
Defined.

Lemma update_twice_ab :
  ∃ h1 h2 h12,
    update 1%positive {[ "a" := 3; "c" := 5 ]} 0 heap_ab = Return () h1 ∧
    update 1%positive {[ "a" := 4 ]} 0 h1 = Return () h2 ∧
    update 1%positive ({[ "a" := 4 ]} ∪ {[ "a" := 3; "c" := 5 ]}) 0 heap_ab
    = Return () h12 ∧
    snapshot 1%positive h2 2 {[ "a" := 4; "b" := 2; "c" := 5 ]} ∧
    snapshot 1%positive h12 1 {[ "a" := 4; "b" := 2; "c" := 5 ]}.
Proof.
  destruct (update_twice heap_ab 1%positive 0 _ {[ "a" := 3; "c" := 5 ]}
              {[ "a" := 4 ]} 0 snapshot_heap_ab)
    as (h1 & h2 & h12 & H1 & H2 & H12 & Hs2 & Hs12).
  exists h1, h2, h12. split; [exact H1|]. split; [exact H2|]. split; [exact H12|].
  vm_compute in Hs2, Hs12. split; [exact Hs2 | exact Hs12].
Defined.

(** [AtomicDict(d)] for the dict [d = {a: 1, b: 2}] of [heap_ab]. *)
Lemma AtomicDict_starts_at_version_0_ab :
  ∃ c h', AtomicDict_call (Some (PyDict 1%positive)) heap_ab = Return c h' ∧
          c ≠ 1%positive ∧
          snapshot c h' 0 {[ "a" := 1; "b" := 2 ]}.
Proof.
  destruct (AtomicDict_starts_at_version_0 heap_ab 1%positive _ eq_refl)
    as ((c & h' & Hnew & Hfresh & Hsnap & _) & _).
  exists c, h'. split; [exact Hnew|]. split; [|exact Hsnap].
  intros ->. discriminate Hfresh.
Defined.

(** Transaction 1 validates; after an [atomic_write_read] that only reads
    [a], its commit is rejected. *)
Lemma stale_transaction_is_rejected_tx :
  let h1 := published 1%positive 1 {[ "a" := 1; "b" := 2 ]} heap_tx in
  run_call 1%positive (CallWriteRead None ["a"] [] 0) heap_tx = Return () h1 ∧
  commit_transaction 1%positive 1%positive h1
  = Raise (DictTransactionError 1%positive 0
             "Expected version: 0 - Actual version: 1") h1.
Proof.
  intros h1.
  assert (validate_transaction 1%positive 1%positive heap_tx = Return true heap_tx)
    as Hval by (vm_compute; reflexivity).
  assert (getattr data 1%positive heap_tx = Return (PyDict 2%positive) heap_tx)
    as Hdata by (vm_compute; reflexivity).
  assert (run_call 1%positive (CallWriteRead None ["a"] [] 0) heap_tx = Return () h1)
    as Hcall by (vm_compute; reflexivity).
  destruct (stale_transaction_is_rejected heap_tx 1%positive 1%positive _ _ _ _
              Hval Hdata Hcall) as (v & Hver & _ & Hcommit).
  assert (v = 0) as -> by (vm_compute in Hver; congruence).
  split; [exact Hcall | exact Hcommit].
Defined.

Lemma commit_twice_tx :
  let h1 := Heap (dicts heap_tx)
              {[ 1%positive := mkAtomicDict (1, PyDict 2%positive) ]}
              (<[ 1%positive := mkDictTransaction (Some PyNone) (Some 1%positive)
                                  (Some 0) (Some true) ]> (transactions heap_tx)) in
  commit 1%positive heap_tx = Return () h1 ∧
  commit 1%positive h1 = Return () h1.
Proof.
  intros h1.
  assert (commit 1%positive heap_tx = Return () h1) as Hcommit
    by (vm_compute; reflexivity).
  split; [exact Hcommit|].
  exact (proj2 (commit_twice heap_tx 1%positive () h1 Hcommit)).
Defined.

(** The commit of the stale transaction 2 raises and changes nothing. *)
Lemma commit_raise_changes_nothing_tx :
  ∃ h1, commit 2%positive heap_tx
        = Raise (DictTransactionError 1%positive 7
                   "Expected version: 7 - Actual version: 0") h1 ∧
        h1 = heap_tx.
Proof.
  assert (commit 2%positive heap_tx
          = Raise (DictTransactionError 1%positive 7
                     "Expected version: 7 - Actual version: 0") heap_tx) as Hraise
    by (vm_compute; reflexivity).
  exists heap_tx. split; [exact Hraise|].
  exact (commit_raise_changes_nothing heap_tx 2%positive _ heap_tx Hraise).
Defined.

Lemma published_stores_are_never_written_tx :
  ∃ h', run_calls 1%positive
          [CallWriteRead (Some {[ "a" := 3 ]}) [] ["b"] 0; CallCommit 2%positive;
           CallClear] heap_tx = Some h' ∧
        dicts h' !! 1%positive = Some {[ "a" := 1; "b" := 2 ]} ∧
        dicts h' !! 2%positive = Some {[ "a" := 1; "b" := 5 ]}.
Proof.
  destruct (run_calls 1%positive
              [CallWriteRead (Some {[ "a" := 3 ]}) [] ["b"] 0; CallCommit 2%positive;
               CallClear] heap_tx) as [h'|] eqn:Hrun; [|by vm_compute in Hrun].
  destruct (published_stores_are_never_written heap_tx 1%positive _ h' Hrun)
    as [Hkeep _].
  exists h'. split; [reflexivity|].
  split; [exact (Hkeep 1%positive _ eq_refl) | exact (Hkeep 2%positive _ eq_refl)].
Defined.

(** Transaction 1 of [heap_tx] holds the dict 2: [t["a"] = 9], then
    [t.commit()]. *)
Lemma transaction_writes_show_at_commit_tx :
  ∃ h1 h2,
    UserDict_setitem 1%positive "a" 9 heap_tx = Return () h1 ∧
    snapshot 1%positive h1 0 {[ "a" := 1; "b" := 2 ]} ∧
    commit 1%positive h1 = Return () h2 ∧
    snapshot 1%positive h2 1 {[ "a" := 9; "b" := 5 ]}.
Proof.
  destruct (transaction_writes_show_at_commit heap_tx 1%positive 1%positive 0
              1%positive {[ "a" := 1; "b" := 2 ]} _ 2%positive
              {[ "a" := 1; "b" := 5 ]} "a" 9
              eq_refl eq_refl eq_refl eq_refl eq_refl ltac:(discriminate)
              eq_refl eq_refl eq_refl)
    as (h1 & h2 & Hset & Hs1 & Hcommit & Hs2 & _).
  exists h1, h2. split; [exact Hset|]. split; [exact Hs1|]. split; [exact Hcommit|].
  vm_compute in Hs2. exact Hs2.
Defined.

Lemma lock_invariant_system_ab : lock_invariant 1%positive system_ab.
Proof.
  split; [|split].
  - intros [|[|i]] j w1 w2 [= <-]. discriminate.
  - intros [|[|i]] w [= <-]. discriminate.
  - intros [|[|i]] w [= <-]. exact I.
Defined.

(** The writer of [system_ab] has taken the lock and read the published
    pair: it is the one writer inside the [with] block. *)
Lemma one_writer_in_the_with_block_ab :
  let s' := system_after 2 1%positive 0 system_ab in
  rtc (sys_step 1%positive) system_ab s' ∧
  sys_lock s' = true ∧
  ∀ i j w1 w2, sys_writers s' !! i = Some w1 → sys_writers s' !! j = Some w2 →
               in_with_block w1 = true → in_with_block w2 = true → i = j.
Proof.
  intros s'. split; [apply system_after_rtc|]. split; [vm_compute; reflexivity|].
  exact (proj1 (one_writer_in_the_with_block 1%positive system_ab s'
                  well_formed_system_ab lock_invariant_system_ab
                  (system_after_rtc 1%positive 2 0 system_ab))).
Defined.

(** The writer of [system_ab] runs up to its last statement and publishes:
    [{a: 1, b: 2}] at version 0 becomes [{a: 3, b: 4}] at version 1. *)
Lemma publication_is_one_whole_call_ab :
  let s := system_after 4 1%positive 0 system_ab in
  let s' := system_after 1 1%positive 0 s in
  rtc (sys_step 1%positive) system_ab s ∧
  sys_step 1%positive s s' ∧
  snapshot 1%positive (sys_heap s) 0 {[ "a" := 1; "b" := 2 ]} ∧
  snapshot 1%positive (sys_heap s') 1 {[ "a" := 3; "b" := 4 ]} ∧
  (atomic_dicts (sys_heap s') !! 1%positive
   = atomic_dicts (sys_heap s) !! 1%positive ∨
   ∃ i a v m l rv,
     sys_writers s !! i = Some (AwrRemove a v l [] rv) ∧
     sys_writers s' !! i = Some (AwrRelease (inl rv)) ∧
     rv = read_values m (read_keys a) (default_value a) ∧
     snapshot 1%positive (sys_heap s) v m ∧
     snapshot 1%positive (sys_heap s') (v + 1)
       (removed (remove_keys a) (default ∅ (write_dict a) ∪ m))).
Proof.
  intros s s'.
  assert (sys_step 1%positive s s') as Hstep
    by (apply system_after_step; vm_compute; reflexivity).
  split; [apply system_after_rtc|]. split; [exact Hstep|].
  split; [exists 1%positive; split; vm_compute; reflexivity|].
  split; [exists 2%positive; split; vm_compute; reflexivity|].
  exact (publication_is_one_whole_call 1%positive system_ab s s'
           well_formed_system_ab lock_invariant_system_ab
           (system_after_rtc 1%positive 4 0 system_ab) Hstep).
Defined.

(** The writer of [system_ab], once it holds the lock, has a next step. *)
Lemma lock_holder_has_a_next_step_ab :
  let s' := system_after 3 1%positive 0 system_ab in
  ∃ w, rtc (sys_step 1%positive) system_ab s' ∧
       sys_writers s' !! 0%nat = Some w ∧ in_with_block w = true ∧
       ∃ w' h' lock',
         writer_step 1%positive w (sys_heap s') (sys_lock s') = Some (w', h', lock').
Proof.
  intros s'.
  destruct (sys_writers s' !! 0%nat) as [w|] eqn:Hw; [|by vm_compute in Hw].
  assert (in_with_block w = true) as Hin.
  { assert (in_with_block <$> sys_writers s' !! 0%nat = Some true) as Hsome
      by (vm_compute; reflexivity).
    rewrite Hw in Hsome. by injection Hsome. }
  exists w. split; [apply system_after_rtc|]. split; [reflexivity|].
  split; [exact Hin|].
  exact (lock_holder_has_a_next_step 1%positive system_ab s' 0%nat w
           well_formed_system_ab lock_invariant_system_ab
           (system_after_rtc 1%positive 3 0 system_ab) Hw Hin).
Defined.
